(** * HiCTools: a shallow embedding of NGS/HiCTools.py

    The functions of [HiCTools.py] that do their own work on tables and
    arrays (rather than hand it to cooler, cooltools or bioframe) are
    written here as Rocq functions, and the statements of the specification
    about them are proved or refuted.

    Conventions.
    - A float64 is a value of [fl]: a finite number (an exact rational, so
      rounding is not modelled), one of the two infinities, or NaN.
    - A numpy array is a shape and a buffer in C order ([ndarray]).
    - A Python exception is the [Raise] case of [res].
    - pandas and numpy objects that the code updates in place live in an
      explicit store, so that two names for one object see the same update. *)

From Stdlib Require Import ZArith QArith Lqa Lia.
From stdpp Require Import gmap strings list.

(** ** Exceptions *)

Inductive exn := ValueError | IndexError | KeyError.

Inductive res (A : Type) : Type :=
| Ok (a : A)
| Raise (e : exn).
Arguments Ok {A} a.
Arguments Raise {A} e.

#[global] Instance res_ret : MRet res := fun A a => Ok a.
#[global] Instance res_bind : MBind res := fun A B f m =>
  match m with
  | Ok a => f a
  | Raise e => Raise e
  end.

Definition is_error {A} (r : res A) : bool :=
  match r with
  | Ok _ => false
  | Raise _ => true
  end.

Definition item {A} (e : exn) (o : option A) : res A :=
  match o with
  | Some a => Ok a
  | None => Raise e
  end.

(** ** int64 values *)

(** int64 arithmetic wraps around. *)
Definition wrap64 (z : Z) : Z := ((z + 2 ^ 63) `mod` 2 ^ 64 - 2 ^ 63)%Z.

(** ** float64 values *)

Inductive fl := Fin (q : Q) | PInf | NInf | NaN.

#[global] Instance fl_inhabited : Inhabited fl := populate NaN.

Definition isinf (x : fl) : bool :=
  match x with
  | PInf | NInf => true
  | _ => false
  end.

Definition isnan (x : fl) : bool :=
  match x with
  | NaN => true
  | _ => false
  end.

Definition notnan (x : fl) : bool := negb (isnan x).

Definition of_int (z : Z) : fl := Fin (inject_Z z).

(** A natural number as a rational. *)
Definition nat_Q (n : nat) : Q := inject_Z (Z.of_nat n).

Definition fneg (x : fl) : fl :=
  match x with
  | Fin a => Fin (- a)
  | PInf => NInf
  | NInf => PInf
  | NaN => NaN
  end.

Definition fadd (x y : fl) : fl :=
  match x, y with
  | NaN, _ | _, NaN => NaN
  | PInf, NInf | NInf, PInf => NaN
  | PInf, _ | _, PInf => PInf
  | NInf, _ | _, NInf => NInf
  | Fin a, Fin b => Fin (a + b)
  end.

Definition fsub (x y : fl) : fl := fadd x (fneg y).

(** numpy's true division: a zero divisor gives NaN or an infinity and
    never an exception. *)
Definition fdiv (x y : fl) : fl :=
  match x, y with
  | NaN, _ | _, NaN => NaN
  | (PInf | NInf), (PInf | NInf) => NaN
  | Fin _, (PInf | NInf) => Fin 0
  | PInf, Fin b => if Qle_bool 0 b then PInf else NInf
  | NInf, Fin b => if Qle_bool 0 b then NInf else PInf
  | Fin a, Fin b =>
      if Qeq_bool b 0 then
        (if Qeq_bool a 0 then NaN else if Qle_bool 0 a then PInf else NInf)
      else Fin (a / b)
  end.

(** The order numpy sorts by: NaN last. *)
Definition fleb (x y : fl) : bool :=
  match x, y with
  | _, NaN => true
  | NaN, _ => false
  | NInf, _ => true
  | _, PInf => true
  | Fin a, Fin b => Qle_bool a b
  | _, _ => false
  end.

(** Sorting by insertion, for an order given as a boolean function. *)
Fixpoint insert_by {A : Type} (leb : A → A → bool) (x : A) (l : list A) : list A :=
  match l with
  | [] => [x]
  | y :: l' => if leb x y then x :: l else y :: insert_by leb x l'
  end.

Definition sort_by {A : Type} (leb : A → A → bool) (l : list A) : list A :=
  foldr (insert_by leb) [] l.

Definition fsort (l : list fl) : list fl := sort_by fleb l.

Definition fsum (l : list fl) : fl := foldr fadd (Fin 0) l.

(** [np.mean]: the sum over the count; NaN on an empty input. *)
Definition mean (l : list fl) : fl :=
  fdiv (fsum l) (of_int (Z.of_nat (length l))).

(** [np.nanmean]: the mean of the cells that are not NaN. *)
Definition nanmean (l : list fl) : fl := mean (filter (fun x => notnan x = true) l).

(** [np.median]: NaN when a NaN is present or the input is empty, otherwise
    the middle of the sorted values, or the mean of the two middle ones. *)
Definition median (l : list fl) : fl :=
  if existsb isnan l then NaN
  else
    let s := fsort l in
    let n := length l in
    if Nat.eqb n 0 then NaN
    else if Nat.even n then mean [s !!! (n / 2 - 1); s !!! (n / 2)]
    else s !!! (n / 2).

(** Equality of floats up to the representation of the rational. *)
Definition fl_eq (x y : fl) : Prop :=
  match x, y with
  | Fin a, Fin b => (a == b)%Q
  | PInf, PInf | NInf, NInf | NaN, NaN => True
  | _, _ => False
  end.

(** ** numpy arrays *)

Record ndarray (A : Type) := mkArr { shape : list nat; buf : list A }.
Arguments mkArr {A} _ _.
Arguments shape {A} _.
Arguments buf {A} _.

Definition size_of (sh : list nat) : nat := foldr Nat.mul 1 sh.

Definition wf_array {A} (a : ndarray A) : Prop :=
  length (buf a) = size_of (shape a).

(** [a[i][j][k]] of a 3-dimensional array and [a[r][c]] of a 2-dimensional
    one, in C order. *)
Definition item3 {A} (a : ndarray A) (i j k : nat) : option A :=
  match shape a with
  | [s0; s1; s2] =>
      if decide (i < s0 ∧ j < s1 ∧ k < s2) then buf a !! ((i * s1 + j) * s2 + k)
      else None
  | _ => None
  end.

Definition item2 {A} (a : ndarray A) (r c : nat) : option A :=
  match shape a with
  | [s0; s1] =>
      if decide (r < s0 ∧ c < s1) then buf a !! (r * s1 + c) else None
  | _ => None
  end.

(** [a.flatten()]: the elements in C order, as one axis. *)
Definition flatten {A} (a : ndarray A) : ndarray A :=
  mkArr [length (buf a)] (buf a).

(** [a.reshape(sh)]: the same buffer under a new shape of the same size. *)
Definition reshape {A} (sh : list nat) (a : ndarray A) : res (ndarray A) :=
  if decide (size_of sh = length (buf a)) then Ok (mkArr sh (buf a))
  else Raise ValueError.

(** Transposition of an [r] by [c] buffer: position [p] of the result, which
    is row [p / r] and column [p mod r] there, holds the source's row
    [p mod r], column [p / r]. *)
Definition transpose_buf {A} `{Inhabited A} (r c : nat) (b : list A) : list A :=
  (fun p => b !!! ((p `mod` r) * c + p `div` r)) <$> seq 0 (r * c).

(** [a.transpose()] of a 2-dimensional array, the only kind that is
    transposed here; an array of one axis is its own transpose. *)
Definition transpose {A} `{Inhabited A} (a : ndarray A) : ndarray A :=
  match shape a with
  | [r; c] => mkArr [c; r] (transpose_buf r c (buf a))
  | _ => a
  end.

(** *** pileToFrame *)

(** [pd.DataFrame(pile.flatten().reshape(pile.shape[0]**2, pile.shape[2])).transpose()];
    the frame of numbers is kept as its 2-dimensional array of values. *)
Definition pileToFrame {A} `{Inhabited A} (pile : ndarray A) : res (ndarray A) :=
  s0 ← item IndexError (shape pile !! 0);
  s2 ← item IndexError (shape pile !! 2);
  t ← reshape [s0 ^ 2; s2] (flatten pile);
  Ok (transpose t).

(** The way back that the specification speaks of: the table's values,
    transposed and reshaped to [W, W, N]. *)
Definition frameToPile {A} `{Inhabited A} (W N : nat) (table : ndarray A) : res (ndarray A) :=
  reshape [W; W; N] (transpose table).

(** *** A pile of three windows of 2 by 2 *)

Definition pile_2_2_3 : ndarray Z :=
  mkArr [2; 2; 3] [1; 2; 3; 4; 5; 6; 7; 8; 9; 10; 11; 12]%Z.

(** ** Tables of read pairs and downSamplePairs *)

Inductive value := VInt (z : Z) | VStr (s : string).

(** A row of a pairs table: the two positions, which are int64 columns, and
    the cells of the other columns by label.  A label without a cell is a
    missing value. *)
Record Row := mkRow { pos1 : Z; pos2 : Z; cells : gmap string value }.

(** A frame of read pairs: the labels of its columns other than the two
    positions, in order, and its rows. *)
Record DataFrame := mkFrame { columns : list string; rows : list Row }.

(** [df[c] = v] with a scalar [v]: the column is overwritten where it is,
    or added last, and every row gets the value.  The frame is changed in
    place: see [tag_and_filter] for the store. *)
Definition set_column (c : string) (v : value) (df : DataFrame) : DataFrame :=
  mkFrame (if decide (c ∈ columns df) then columns df else columns df ++ [c])
          ((fun r => mkRow (pos1 r) (pos2 r) (<[c := v]> (cells r))) <$> rows df).
Arguments set_column : simpl never.

(** [pd.concat((a, b))]: the rows of [a], then those of [b], under the union
    of the columns; a new frame. *)
Definition concat (a b : DataFrame) : DataFrame :=
  mkFrame (columns a ++ filter (fun c => c ∉ columns a) (columns b))
          (rows a ++ rows b).

(** The mask [(df["pos2"] - df["pos1"]) > Distance] at one row. *)
Definition far_apart (Distance : Z) (r : Row) : Prop :=
  (Distance < wrap64 (pos2 r - pos1 r))%Z.

#[global] Instance far_apart_dec Distance r : Decision (far_apart Distance r).
Proof. unfold far_apart. apply _. Defined.

(** [df.loc[(df["pos2"] - df["pos1"]) > Distance, :]] *)
Definition loc_distance (Distance : Z) (df : DataFrame) : DataFrame :=
  mkFrame (columns df) (filter (far_apart Distance) (rows df)).

(** The mask [df["rType"] == t] at one row: a missing cell or a cell of
    another type compares unequal. *)
Definition has_rType (t : string) (r : Row) : Prop :=
  cells r !! "rType" = Some (VStr t).

#[global] Instance value_eq_dec : EqDecision value.
Proof. solve_decision. Defined.

#[global] Instance has_rType_dec t r : Decision (has_rType t r).
Proof. unfold has_rType. apply _. Defined.

(** [df.loc[df["rType"] == t, :]]; the column has to exist. *)
Definition loc_rType (t : string) (df : DataFrame) : res DataFrame :=
  if decide ("rType" ∈ columns df)
  then Ok (mkFrame (columns df) (filter (has_rType t) (rows df)))
  else Raise KeyError.

(** The frames of the caller are objects in a store; a sample holds
    references to its two frames, so that one frame may be reached under
    several names. *)
Abbreviation store := (gmap nat DataFrame).

Record cisTransPairs := mkSample { cis : nat; trans : nat }.

(** A dictionary of samples in insertion order; the keys are distinct. *)
Abbreviation pairsSamples := (list (string * cisTransPairs)).

(** Reading the object behind a reference.  Python has no reference
    without an object: [refs_ok] below says so of an input. *)
Definition deref (h : store) (l : nat) : res DataFrame := item KeyError (h !! l).

(** The body of the first loop for one sample.  [cisTemp] and [transTemp]
    are the caller's frames themselves, so both assignments of "rType"
    are writes to the store, and the concatenation reads the frames as
    they are after both. *)
Definition tag_and_filter (Distance : Z) (e : cisTransPairs) (h : store)
    : res (DataFrame * store) :=
  cisTemp ← deref h (cis e);
  let h1 := <[cis e := set_column "rType" (VStr "cis") cisTemp]> h in
  transTemp ← deref h1 (trans e);
  let h2 := <[trans e := set_column "rType" (VStr "trans") transTemp]> h1 in
  cisNow ← deref h2 (cis e);
  transNow ← deref h2 (trans e);
  Ok (loc_distance Distance (concat cisNow transNow), h2).

(** The first loop: [outDict[sample]["all"]] for every sample. *)
Fixpoint tag_all (Distance : Z) (sampleDict : pairsSamples) (h : store)
    : res (list (string * gmap string DataFrame) * store) :=
  match sampleDict with
  | [] => Ok ([], h)
  | (sample, e) :: rest =>
      '(all, h1) ← tag_and_filter Distance e h;
      '(outDict, h2) ← tag_all Distance rest h1;
      Ok ((sample, <["all" := all]> ∅) :: outDict, h2)
  end.

(** [[len(i["all"]) for i in outDict.values()]] *)
Fixpoint all_lens (outDict : list (string * gmap string DataFrame)) : res (list nat) :=
  match outDict with
  | [] => Ok []
  | (_, o) :: rest =>
      all ← item KeyError (o !! "all");
      ns ← all_lens rest;
      Ok (length (rows all) :: ns)
  end.

(** Python's [min] of a list: ValueError on the empty list. *)
Definition py_min (l : list nat) : res nat :=
  match l with
  | [] => Raise ValueError
  | x :: l' => Ok (foldr Nat.min x l')
  end.

(** [df.sample(n=n)]: [n] distinct row positions drawn by the generator,
    and the rows at these positions in the order drawn.  The generator is
    a state [g] and a function [choice g len n] that returns the positions
    and the next state, as [numpy.random.choice(len, n, replace=False)]. *)
Definition sample {G : Type} (choice : G → nat → nat → list nat * G)
    (n : nat) (df : DataFrame) (g : G) : res (DataFrame * G) :=
  if decide (n ≤ length (rows df)) then
    let '(locs, g1) := choice g (length (rows df)) n in
    taken ← item IndexError (mapM (fun i => rows df !! i) locs);
    Ok (mkFrame (columns df) taken, g1)
  else Raise ValueError.

(** The body of the second loop for one sample. *)
Definition split_sample {G : Type} (choice : G → nat → nat → list nat * G)
    (minReads : nat) (o : gmap string DataFrame) (g : G)
    : res (gmap string DataFrame * G) :=
  all ← item KeyError (o !! "all");
  '(drawn, g1) ← sample choice minReads all g;
  let o1 := <["all" := drawn]> o in
  all1 ← item KeyError (o1 !! "all");
  cisPart ← loc_rType "cis" all1;
  let o2 := <["cis" := cisPart]> o1 in
  all2 ← item KeyError (o2 !! "all");
  transPart ← loc_rType "trans" all2;
  let o3 := <["trans" := transPart]> o2 in
  _ ← item KeyError (o3 !! "all");
  Ok (delete "all" o3, g1).

Fixpoint split_all {G : Type} (choice : G → nat → nat → list nat * G)
    (minReads : nat) (outDict : list (string * gmap string DataFrame)) (g : G)
    : res (list (string * gmap string DataFrame) * G) :=
  match outDict with
  | [] => Ok ([], g)
  | (sample, o) :: rest =>
      '(o', g1) ← split_sample choice minReads o g;
      '(out, g2) ← split_all choice minReads rest g1;
      Ok ((sample, o') :: out, g2)
  end.

(** [downSamplePairs(sampleDict, Distance)]: the result, the store after
    the call and the generator after the call. *)
Definition downSamplePairs {G : Type} (choice : G → nat → nat → list nat * G)
    (sampleDict : pairsSamples) (Distance : Z) (h : store) (g : G)
    : res (list (string * gmap string DataFrame) * store * G) :=
  '(outDict, h1) ← tag_all Distance sampleDict h;
  lens ← all_lens outDict;
  minReads ← py_min lens;
  '(out, g1) ← split_all choice minReads outDict g;
  Ok (out, h1, g1).

(** *** What the statements about downSamplePairs are written with *)

(** A row without its "rType" cell. *)
Definition untag (r : Row) : Row :=
  mkRow (pos1 r) (pos2 r) (delete "rType" (cells r)).

(** Every reference of the dictionary has a frame behind it. *)
Definition refs_ok (h : store) (d : pairsSamples) : Prop :=
  Forall (fun se => is_Some (h !! cis se.2) ∧ is_Some (h !! trans se.2)) d.

(** What a generator is taken to do: [n] distinct positions below [len]. *)
Definition valid_choice {G : Type} (choice : G → nat → nat → list nat * G) : Prop :=
  ∀ g len n, n ≤ len →
    NoDup (choice g len n).1 ∧
    length (choice g len n).1 = n ∧
    Forall (fun i => i < len) (choice g len n).1.

(** The rows of a sample that pass the distance filter, read from the
    frames as the caller passed them. *)
Definition qualifying (Distance : Z) (h : store) (e : cisTransPairs) : list Row :=
  match h !! cis e, h !! trans e with
  | Some c, Some t => filter (far_apart Distance) (rows c ++ rows t)
  | _, _ => []
  end.

(** Two stores hold the same frames up to the "rType" cells. *)
Definition store_rel (h0 h : store) : Prop :=
  ∀ l, match h0 !! l, h !! l with
       | Some a, Some b => untag <$> rows a = untag <$> rows b
       | None, None => True
       | _, _ => False
       end.

(** The combined table of a sample after the first loop, against the
    frames the caller passed. *)
Definition all_of (Distance : Z) (h : store) (e : cisTransPairs) (all : DataFrame) : Prop :=
  ∃ c0 t0,
    h !! cis e = Some c0 ∧ h !! trans e = Some t0 ∧
    "rType" ∈ columns all ∧
    untag <$> rows all = untag <$> filter (far_apart Distance) (rows c0 ++ rows t0) ∧
    Forall (fun r => (has_rType "cis" r ∧ untag r ∈ untag <$> rows c0) ∨
                     (has_rType "trans" r ∧ untag r ∈ untag <$> rows t0))
           (rows all).

(** The two tables returned for a sample, against its combined table. *)
Definition split_of (n : nat) (all : DataFrame) (o : gmap string DataFrame) : Prop :=
  ∃ locs drawn cp tp,
    NoDup locs ∧ length locs = n ∧
    Forall2 (fun i r => rows all !! i = Some r) locs drawn ∧
    o = <["trans" := tp]> (<["cis" := cp]> ∅) ∧
    columns cp = columns all ∧ columns tp = columns all ∧
    rows cp = filter (has_rType "cis") drawn ∧
    rows tp = filter (has_rType "trans") drawn.

(** The filter as the specification words it, on the absolute distance. *)
Definition far_apart_abs (Distance : Z) (r : Row) : Prop :=
  (Distance < Z.abs (pos2 r - pos1 r))%Z.

#[global] Instance far_apart_abs_dec Distance r : Decision (far_apart_abs Distance r).
Proof. unfold far_apart_abs. apply _. Defined.

(** *** A small input: one sample, two cis pairs and one trans pair *)

Definition pair_row (chrom1 : string) (p1 : Z) (chrom2 : string) (p2 : Z) : Row :=
  mkRow p1 p2 (<["chrom1" := VStr chrom1]> (<["chrom2" := VStr chrom2]> ∅)).

Definition cis_ex : DataFrame :=
  mkFrame ["chrom1"; "chrom2"]
          [pair_row "chr1" 100 "chr1" 50000; pair_row "chr1" 100 "chr1" 200].

Definition trans_ex : DataFrame :=
  mkFrame ["chrom1"; "chrom2"] [pair_row "chr1" 50000 "chr2" 10].

Definition store_ex : store := <[0 := cis_ex]> (<[1 := trans_ex]> ∅).

Definition samples_ex : pairsSamples := [("A", mkSample 0 1)].

(** A generator that draws the first [n] positions. *)
Definition first_rows (g : unit) (len n : nat) : list nat * unit := (seq 0 n, g).

(** ** slidingDiamond *)

(** Whether position [p] of the buffer of an array with [ncols] columns lies
    in the slice [[i:j, i:j]]. *)
Definition in_window (i j ncols p : nat) : bool :=
  let r := p `div` ncols in
  let c := p `mod` ncols in
  (i <=? r) && (r <? j) && (i <=? c) && (c <? j).

(** [diamondArray = array[i:j, i:j]] is a view of [array], so
    [diamondArray[np.isinf(diamondArray)] = np.nan] writes into [array]:
    this is the array after the write. *)
Definition scrub_window (i j ncols : nat) (b : list fl) : list fl :=
  imap (fun p x => if in_window i j ncols p && isinf x then NaN else x) b.

(** The cells of the slice [[i:j, i:j]]. *)
Definition window_cells (i j ncols : nat) (b : list fl) : list fl :=
  omap id (imap (fun p x => if in_window i j ncols p then Some x else None) b).

(** [np.mean(range(i, i + halfWindow + 1))], the offset appended at index [i]. *)
Definition bin (halfWindow i : nat) : fl :=
  mean (of_int <$> (Z.of_nat <$> seq i (halfWindow + 1))).
Arguments bin : simpl never.

(** The body of the loop at index [i]: the array after the write, the mean
    of the diamond and the mean of [range(i, i + halfWindow + 1)]. *)
Definition diamond_step (halfWindow ncols i : nat) (b : list fl)
    : list fl * fl * fl :=
  let b1 := scrub_window i (i + halfWindow + 1) ncols b in
  (b1,
   nanmean (window_cells i (i + halfWindow + 1) ncols b1),
   bin halfWindow i).

(** The loop over [range(0, array.shape[0] - halfWindow)], threading the
    array; the accumulators are returned in append order. *)
Fixpoint diamond_loop (halfWindow ncols : nat) (idxs : list nat) (b : list fl)
    : list fl * list fl * list fl :=
  match idxs with
  | [] => (b, [], [])
  | i :: rest =>
      let '(b1, d, x) := diamond_step halfWindow ncols i b in
      let '(b2, diamondAccumulator, binAccumulator) :=
        diamond_loop halfWindow ncols rest b1 in
      (b2, d :: diamondAccumulator, x :: binAccumulator)
  end.

(** [slidingDiamond(array, sideLen)] for a 2-dimensional array and a side
    length that is not negative: the offsets, the values, and the array as
    the call leaves it. *)
Definition slidingDiamond (array : ndarray fl) (sideLen : nat)
    : res (list fl * list fl * ndarray fl) :=
  match shape array with
  | [nrows; ncols] =>
      let halfWindow := sideLen `div` 2 in
      let '(b, diamondAccumulator, binAccumulator) :=
        diamond_loop halfWindow ncols (seq 0 (nrows - halfWindow)) (buf array) in
      Ok ((fun x => fsub x (median binAccumulator)) <$> binAccumulator,
          diamondAccumulator,
          mkArr (shape array) b)
  | _ => Raise IndexError
  end.

(** *** A 3 by 3 matrix with an infinite cell on the diagonal *)

Definition matrix_ex : ndarray fl :=
  mkArr [3; 3] [PInf; Fin 1; Fin 2;
                Fin 1; Fin 4; Fin 3;
                Fin 2; Fin 3; Fin 5].

(** ** assignRegions and assignRegions2d *)

(** A row of the frame of windows that cooltools returns: the window, its
    bin range, and the region it was assigned to; a window that lies in no
    region has a missing value there. *)
Record Window (R : Type) := mkWindow {
  w_chrom : string; w_start : Z; w_end : Z; w_lo : Z; w_hi : Z;
  w_region : option R
}.
Arguments mkWindow {R} _ _ _ _ _ _.
Arguments w_chrom {R} _.
Arguments w_start {R} _.
Arguments w_end {R} _.
Arguments w_lo {R} _.
Arguments w_hi {R} _.
Arguments w_region {R} _.

(** The two functions of [cooltools.snipping] that assignRegions calls;
    they are not part of this repository. *)
Record Snipping (R Arm : Type) := mkSnipping {
  make_bin_aligned_windows : Z → list string → list Z → Z → list (Window R);
  assign_regions : list (Window R) → list Arm → list (Window R)
}.
Arguments mkSnipping {R Arm} _ _.
Arguments make_bin_aligned_windows {R Arm} _ _ _ _ _.
Arguments assign_regions {R Arm} _ _ _.

Definition assignRegions {R Arm : Type} (cooltools : Snipping R Arm)
    (window binsize : Z) (chroms : list string) (positions : list Z)
    (arms : list Arm) : list (Window R) :=
  assign_regions cooltools
    (make_bin_aligned_windows cooltools binsize chroms positions window) arms.

(** [pd.concat((windows1, windows2), axis=1)]: the rows are paired by their
    index, and where one frame is shorter its side is missing. *)
Fixpoint concat_axis1 {A B : Type} (l1 : list A) (l2 : list B)
    : list (option A * option B) :=
  match l1, l2 with
  | [], _ => (fun y => (None, Some y)) <$> l2
  | _, [] => (fun x => (Some x, None)) <$> l1
  | x :: l1', y :: l2' => (Some x, Some y) :: concat_axis1 l1' l2'
  end.

(** [windows["region1"] == windows["region2"]] at one row: pandas compares
    a missing value unequal to everything, itself included. *)
Definition same_region {R : Type} `{EqDecision R}
    (row : option (Window R) * option (Window R)) : bool :=
  match row with
  | (Some w1, Some w2) =>
      match w_region w1, w_region w2 with
      | Some r1, Some r2 => bool_decide (r1 = r2)
      | _, _ => false
      end
  | _ => false
  end.

(** A row of the frame that assignRegions2d returns; a cell is missing where
    the side of the window was. *)
Record Window2d (R : Type) := mkWindow2d {
  chrom1 : option string; start1 : option Z; end1 : option Z;
  chrom2 : option string; start2 : option Z; end2 : option Z;
  region : option R
}.
Arguments mkWindow2d {R} _ _ _ _ _ _ _.
Arguments region {R} _.

(** [windowsFinal[[...]]] with "region1" renamed to "region". *)
Definition small_row {R : Type} (row : option (Window R) * option (Window R))
    : Window2d R :=
  mkWindow2d (w_chrom <$> row.1) (w_start <$> row.1) (w_end <$> row.1)
             (w_chrom <$> row.2) (w_start <$> row.2) (w_end <$> row.2)
             (row.1 ≫= w_region).

Definition assignRegions2d {R Arm : Type} `{EqDecision R} (cooltools : Snipping R Arm)
    (window binsize : Z) (chroms1 : list string) (positions1 : list Z)
    (chroms2 : list string) (positions2 : list Z) (arms : list Arm)
    : list (Window2d R) :=
  let windows1 := assignRegions cooltools window binsize chroms1 positions1 arms in
  let windows2 := assignRegions cooltools window binsize chroms2 positions2 arms in
  let windows := concat_axis1 windows1 windows2 in
  let windowsFinal := List.filter same_region windows in
  small_row <$> windowsFinal.

(** *** A stand-in for cooltools on three anchor pairs: windows of 10 around
    the position, and a region only for positions below 1000 *)

Definition snipping_ex : Snipping string unit :=
  mkSnipping
    (fun binsize chroms positions window =>
       (fun cp => mkWindow cp.1 (cp.2 - window) (cp.2 + window) 0 0 None)
         <$> zip chroms positions)
    (fun windows arms =>
       (fun w => mkWindow (w_chrom w) (w_start w) (w_end w) (w_lo w) (w_hi w)
                          (if decide (w_end w < 1000)%Z then Some (w_chrom w) else None))
         <$> windows).

(** ** getPairingScore *)

(** A row of [output] after the merge of the regions with their windows:
    the columns that are returned; none of them is missing, because the
    merge is followed by [dropna()]. *)
Record Bin := mkBin { b_chrom : string; b_start : Z; b_end : Z }.

Record ScoreRow := mkScore {
  s_chrom : string; s_start : Z; s_end : Z; PairingScore : fl
}.

(** [output.loc[:, "PairingScore"] = summarized]: the series is aligned by
    index, and a row it has no value for gets NaN. *)
Definition set_scores (output : list Bin) (summarized : list fl) : list ScoreRow :=
  imap (fun k b => mkScore (b_chrom b) (b_start b) (b_end b)
                           (default NaN (summarized !! k)))
       output.

(** [output.dropna()]: only the score can be missing. *)
Definition dropna (output : list ScoreRow) : list ScoreRow :=
  filter (fun r => notnan (PairingScore r) = true) output.

(** [output["PairingScore"] - np.median(output.dropna()["PairingScore"])] *)
Definition subtract_median (output : list ScoreRow) : list ScoreRow :=
  let m := median (PairingScore <$> dropna output) in
  (fun r => mkScore (s_chrom r) (s_start r) (s_end r) (fsub (PairingScore r) m))
    <$> output.

(** The last lines of getPairingScore, from the assignment of the scores
    on.  What comes before them is calls into cooler and cooltools, which
    produce [output], the regions that were assigned a window, and
    [summarized], the value of [func] on every window of the pile. *)
Definition getPairingScore (output : list Bin) (summarized : list fl) (norm : bool)
    : list ScoreRow :=
  let scored := set_scores output summarized in
  if norm then subtract_median scored else scored.

Definition isfinite (x : fl) : bool :=
  match x with
  | Fin _ => true
  | _ => false
  end.

(** The scores of a table that are not NaN. *)
Definition valid_scores (output : list ScoreRow) : list fl :=
  filter (fun x => notnan x = true) (PairingScore <$> output).

(** *** Three bins; a summary function that gave minus infinity twice *)

Definition bins_ex : list Bin :=
  [mkBin "chr1" 0 1000; mkBin "chr1" 1000 2000; mkBin "chr1" 2000 3000].

Definition log_scores_ex : list fl := [NInf; NInf; Fin 1].

Definition scores_ex : list fl := [Fin 3; NaN; Fin 1].

(** Subtraction of a finite number. *)
Definition shift (m : Q) (x : fl) : fl := fsub x (Fin m).

(** ** getExpected *)

(** A row of a table of [cooltools.expected.diagsum]: a diagonal of a
    region, the number of valid pixels on it, and the sums of the raw and of
    the balanced counts. *)
Record DiagRow := mkDiag {
  diag : Z; n_valid : Z; count_sum : fl; balanced_sum : fl
}.

(** A row of [expected_df]. *)
Record ExpectedRow := mkExpected {
  e_chrom : string; e_start : Z; e_end : Z; e_diag : Z;
  e_n_valid : Z; e_count_sum : fl; e_balanced_sum : fl
}.

(** [pd.concat([exp.reset_index().assign(chrom=reg[0], start=reg[1],
    end=reg[2]) for reg, exp in expected.items()])] *)
Definition concat_regions (expected : list (string * Z * Z * list DiagRow))
    : list ExpectedRow :=
  '(chrom, start, end_, exp) ← expected;
  (fun d => mkExpected chrom start end_ (diag d) (n_valid d) (count_sum d)
                       (balanced_sum d)) <$> exp.

Definition group_key (r : ExpectedRow) : string * Z * Z * Z :=
  (e_chrom r, e_start r, e_end r, e_diag r).

(** The order of the group keys: by chrom, then start, end and diag. *)
Definition key_leb (a b : string * Z * Z * Z) : bool :=
  let '(c1, s1, e1, d1) := a in
  let '(c2, s2, e2, d2) := b in
  match String.compare c1 c2 with
  | Lt => true
  | Gt => false
  | Eq =>
      match (s1 ?= s2)%Z with
      | Lt => true
      | Gt => false
      | Eq =>
          match (e1 ?= e2)%Z with
          | Lt => true
          | Gt => false
          | Eq => (d1 <=? d2)%Z
          end
      end
  end.

(** The sum of a float column in a group: missing values are skipped. *)
Definition nansum (l : list fl) : fl := fsum (filter (fun x => notnan x = true) l).

(** The sum of an int64 column. *)
Definition int_sum (l : list Z) : Z := wrap64 (foldr Z.add 0%Z l).

(** The aggregated row of the group with key [k]. *)
Definition aggregate_group (rows : list ExpectedRow) (k : string * Z * Z * Z)
    : ExpectedRow :=
  let members := filter (fun r => group_key r = k) rows in
  mkExpected k.1.1.1 k.1.1.2 k.1.2 k.2
             (int_sum (e_n_valid <$> members))
             (nansum (e_count_sum <$> members))
             (nansum (e_balanced_sum <$> members)).

(** [groupby(['chrom', 'start', 'end', 'diag']).aggregate({...: 'sum'}).reset_index()]:
    one row for every key, in the order of the keys. *)
Definition groupby_sum (rows : list ExpectedRow) : list ExpectedRow :=
  aggregate_group rows <$> sort_by key_leb (remove_dups (group_key <$> rows)).

Record AvgRow := mkAvg { a_row : ExpectedRow; balanced_avg : fl }.

(** [expected_df['balanced.avg'] = expected_df['balanced.sum'] / expected_df['n_valid']] *)
Definition with_avg (r : ExpectedRow) : AvgRow :=
  mkAvg r (fdiv (e_balanced_sum r) (of_int (e_n_valid r))).

(** [getExpected(clr, arms, proc, ignoreDiagonals)].  [diagsum] is
    [cooltools.expected.diagsum] with the transform and the pool that
    getExpected passes; it is not part of this repository.  What it
    returns is the list of its regions with their tables.  [proc] is the
    size of the pool only. *)
Definition getExpected {Cooler : Type}
    (diagsum : Cooler → list (string * Z * Z) → Z → list (string * Z * Z * list DiagRow))
    (clr : Cooler) (arms : list (string * Z * Z)) (ignoreDiagonals : Z)
    : list AvgRow :=
  let expected := diagsum clr arms ignoreDiagonals in
  let expected_df := groupby_sum (concat_regions expected) in
  with_avg <$> expected_df.

(** What diagsum is taken to return: counts of pixels, a diagonal without
    valid pixel with nothing summed on it (0, or NaN on an ignored
    diagonal), and fewer than 2^63 pixels in all. *)
Definition diagsum_counts (expected : list (string * Z * Z * list DiagRow)) : Prop :=
  Forall (fun d => (0 ≤ n_valid d)%Z ∧
                   (n_valid d = 0%Z → balanced_sum d = NaN ∨ fl_eq (balanced_sum d) (Fin 0)))
         (expected ≫= snd) ∧
  (foldr Z.add 0 (n_valid <$> (expected ≫= snd)) < 2 ^ 63)%Z.

(** *** A stand-in for diagsum on the two arms of one chromosome; each has
    a diagonal without valid pixel *)

Definition diagsum_ex (clr : unit) (arms : list (string * Z * Z)) (ignoreDiagonals : Z)
    : list (string * Z * Z * list DiagRow) :=
  [("chr1", 0, 1000, [mkDiag 0 3 (Fin 7) NaN; mkDiag 1 2 (Fin 5) (Fin (3 # 2));
                      mkDiag 2 0 (Fin 1) (Fin 0)]);
   ("chr1", 1000, 2000, [mkDiag 0 2 (Fin 4) NaN; mkDiag 1 0 (Fin 0) (Fin 0)])]%Z.

(** ** getArmsHg19 *)

(** [s.get(key, default)] on a Series kept as its (label, value) pairs in
    index order.  The labels of the Series here are chromosome names, each
    once; pandas returns all the matches for a label that occurs twice, and
    that case is left to a hypothesis where it matters. *)
Definition series_get (s : list (string * Z)) (key : string) (default : Z) : Z :=
  match list_find (fun kv => kv.1 = key) s with
  | Some (_, kv) => kv.2
  | None => default
  end.

(** [getArmsHg19()].  The two tables that bioframe downloads are arguments:
    [chromsizes], a Series of lengths by chromosome name, in its order, and
    [cens], the column [mid] of the centromeres indexed by chromosome. *)
Definition getArmsHg19 (chromsizes : list (string * Z)) (cens : gmap string Z)
    : list (string * Z * Z) :=
  let GOOD_CHROMS := take 23 (chromsizes.*1) in
  chrom ← GOOD_CHROMS;
  [(chrom, 0%Z, default 0%Z (cens !! chrom));
   (chrom, default 0%Z (cens !! chrom), series_get chromsizes chrom 0)].

(** *** Two chromosomes, one without a centromere record *)

Definition chromsizes_ex : list (string * Z) := [("chr1", 2000%Z); ("chrM", 160%Z)].

Definition cens_ex : gmap string Z := <["chr1" := 900%Z]> ∅.

(** ** doPileupICCF and doPileupObsExp *)

(** [np.nanmean(pile[:, :, :], axis=2)]: the index with three slices needs
    three axes; the mean runs over the third axis and keeps the others. *)
Definition nanmean_axis2 (pile : ndarray fl) : res (ndarray fl) :=
  match shape pile with
  | s0 :: s1 :: s2 :: rest =>
      let inner := size_of rest in
      Ok (mkArr (s0 :: s1 :: rest)
                ((fun q =>
                    nanmean ((fun k => buf pile !!! (((q `div` inner) * s2 + k) * inner
                                                     + q `mod` inner))
                               <$> seq 0 s2))
                   <$> seq 0 (s0 * s1 * inner)))
  | _ => Raise IndexError
  end.

(** [doPileupICCF(clr, snipping_windows, proc, collapse)].  [pileup] is
    [cooltools.snipping.pileup] with the snipper of corrected counts of
    [clr]; it is not part of this repository.  [proc] is the size of the
    pool only. *)
Definition doPileupICCF {Cooler Windows : Type}
    (pileup : Cooler → Windows → ndarray fl)
    (clr : Cooler) (snipping_windows : Windows) (collapse : bool)
    : res (ndarray fl) :=
  let ICCF_pile := pileup clr snipping_windows in
  if collapse then nanmean_axis2 ICCF_pile else Ok ICCF_pile.

(** [doPileupObsExp(clr, expected_df, snipping_windows, proc, collapse)],
    with the pileup of observed over expected values as argument.  The
    warnings that are silenced there change no value. *)
Definition doPileupObsExp {Cooler Expected Windows : Type}
    (pileup : Cooler → Expected → Windows → ndarray fl)
    (clr : Cooler) (expected_df : Expected) (snipping_windows : Windows)
    (collapse : bool) : res (ndarray fl) :=
  let oe_pile := pileup clr expected_df snipping_windows in
  if collapse then nanmean_axis2 oe_pile else Ok oe_pile.

(** The cells of a pile at pixel [i], [j], one for every window. *)
Definition pixel_stack (pile : ndarray fl) (i j : nat) : list fl :=
  match shape pile with
  | [s0; s1; s2] => omap (fun k => item3 pile i j k) (seq 0 s2)
  | _ => []
  end.

(** *** A pile of two windows of 2 by 2 with missing and infinite cells *)

Definition pile_ex : ndarray fl :=
  mkArr [2; 2; 2] [Fin 1; Fin 3;  NaN; Fin 4;
                   PInf; Fin 2;   NaN; NaN].

(** ** What the further theorems are written with *)

Definition one_window_ex : ndarray fl :=
  mkArr [2; 2; 1] [Fin 1; NaN; PInf; Fin 4].

Definition pile_2_3_1 : ndarray Z := mkArr [2; 3; 1] [1; 2; 3; 4; 5; 6]%Z.

Definition matrix_2_2 : ndarray fl := mkArr [2; 2] [Fin 1; Fin 2; Fin 3; Fin 4].

(** The row that a pair of windows gives, if it gives one. *)
Definition paired_row {R : Type} `{EqDecision R} (w : Window R * Window R)
    : option (Window2d R) :=
  match w_region w.1, w_region w.2 with
  | Some r1, Some r2 =>
      if decide (r1 = r2) then
        Some (mkWindow2d (Some (w_chrom w.1)) (Some (w_start w.1)) (Some (w_end w.1))
                         (Some (w_chrom w.2)) (Some (w_start w.2)) (Some (w_end w.2))
                         (Some r1))
      else None
  | _, _ => None
  end.

(** What the write of slidingDiamond does to a cell of a diamond. *)
Definition inf_to_nan (x : fl) : fl := if isinf x then NaN else x.

(** Whether a position of the buffer lies in the diamond of one of the
    indices. *)
Definition covered (halfWindow ncols : nat) (idxs : list nat) (p : nat) : bool :=
  existsb (fun i => in_window i (i + halfWindow + 1) ncols p) idxs.

Definition matrix_wide_ex : ndarray fl :=
  mkArr [3; 3] [Fin 1; Fin 2; PInf;
                Fin 2; NInf; Fin 3;
                PInf; Fin 3; Fin 5].

(** A frame that carries the column "rType" with "cis" or "trans" in
    every row. *)
Definition tagged (o : option DataFrame) : Prop :=
  ∃ df, o = Some df ∧ "rType" ∈ columns df ∧
        Forall (fun r => has_rType "cis" r ∨ has_rType "trans" r) (rows df).

(** The references that a dictionary of samples holds. *)
Definition refs (d : pairsSamples) : list nat :=
  se ← d; [cis se.2; trans se.2].

(** A sample whose cis and trans tables are one frame. *)
Definition alias_samples_ex : pairsSamples := [("A", mkSample 0 0)].

(** A pair stored with its lower position first, both int64 and not
    negative. *)
Definition ordered_pair (r : Row) : Prop :=
  (0 ≤ pos1 r ∧ pos1 r ≤ pos2 r ∧ pos2 r < 2 ^ 63)%Z.

Definition ordered_store_ex : store :=
  <[0 := cis_ex]> (<[1 := mkFrame ["chrom1"; "chrom2"] [pair_row "chr1" 10 "chr2" 50000]]> ∅).

(** * Theorems *)

(** ** Arrays and pileToFrame *)

Section arrays.
Context {A : Type} `{Inhabited A}.
Implicit Types (b : list A) (r c p : nat).

Lemma divmod_row_major c i j :
  j < c → (i * c + j) `div` c = i ∧ (i * c + j) `mod` c = j.
Proof.
  intros Hj. split.
  - rewrite Nat.div_add_l by lia. rewrite Nat.div_small by lia. lia.
  - rewrite Nat.add_comm, Nat.Div0.mod_add. by apply Nat.mod_small.
Qed.

Lemma length_transpose_buf r c b : length (transpose_buf r c b) = r * c.
Proof. unfold transpose_buf. by rewrite length_fmap, length_seq. Qed.

Lemma lookup_transpose_buf r c b i j :
  i < r → j < c → length b = r * c →
  transpose_buf r c b !! (j * r + i) = b !! (i * c + j).
Proof.
  intros Hi Hj Hlen. unfold transpose_buf.
  assert (j * r + i < r * c) by nia.
  rewrite list_lookup_fmap, lookup_seq_lt by done. simpl.
  destruct (divmod_row_major r j i Hi) as [-> ->].
  symmetry. apply list_lookup_lookup_total_lt. nia.
Qed.

Lemma transpose_buf_involutive r c b :
  length b = r * c → transpose_buf c r (transpose_buf r c b) = b.
Proof.
  intros Hlen. apply list_eq. intros p.
  destruct (decide (p < r * c)) as [Hp|Hp].
  - assert (0 < c) by nia.
    pose proof (Nat.div_mod_eq p c) as Hdm.
    pose proof (Nat.mod_upper_bound p c ltac:(lia)) as Hm.
    assert (p `div` c < r) as Hd by (apply Nat.Div0.div_lt_upper_bound; lia).
    set (i := p `div` c) in *. set (j := p `mod` c) in *.
    clearbody i j. assert (p = i * c + j) as -> by lia.
    rewrite lookup_transpose_buf; [|done|done|by rewrite length_transpose_buf; lia].
    by rewrite lookup_transpose_buf.
  - rewrite !lookup_ge_None_2; [done|lia|].
    rewrite length_transpose_buf. lia.
Qed.
End arrays.

(** C3. A pile of shape [W, W, N] becomes a table with N rows and W*W
    columns whose entry at row k, column i*W+j is pile[i][j][k], and
    transposing and reshaping that table with W and N gives the pile back. *)
Theorem C3_pileToFrame_layout {A : Type} `{Inhabited A}
    (pile : ndarray A) (W N : nat) :
  shape pile = [W; W; N] →
  wf_array pile →
  ∃ table,
    pileToFrame pile = Ok table ∧
    shape table = [N; W * W] ∧
    wf_array table ∧
    (∀ i j k, i < W → j < W → k < N →
       is_Some (item3 pile i j k) ∧
       item2 table k (i * W + j) = item3 pile i j k) ∧
    frameToPile W N table = Ok pile.
Proof.
  destruct pile as [sh b]. unfold wf_array. simpl. intros -> Hlen. simpl in Hlen.
  assert (W ^ 2 = W * W) as Hsq by (simpl; lia).
  assert (length b = (W * W) * N) as Hb by lia.
  unfold pileToFrame, flatten, reshape. simpl.
  rewrite decide_True by (rewrite Nat.mul_1_r in *; lia). simpl.
  unfold transpose. simpl. rewrite ?Nat.mul_1_r in *.
  eexists. split; [reflexivity|]. simpl.
  split; [done|]. split.
  { rewrite length_transpose_buf. simpl. lia. }
  split.
  - intros i j k Hi Hj Hk. unfold item3, item2. simpl.
    assert (i * W + j < W * W) by nia.
    rewrite !decide_True by done.
    split.
    + apply lookup_lt_is_Some. nia.
    + by apply lookup_transpose_buf.
  - unfold frameToPile, transpose, reshape. simpl.
    rewrite transpose_buf_involutive by lia.
    rewrite decide_True by lia. done.
Qed.

Lemma C3_pileToFrame_layout_witness :
  ∃ table,
    pileToFrame pile_2_2_3 = Ok table ∧
    shape table = [3; 2 * 2] ∧
    wf_array table ∧
    (∀ i j k, i < 2 → j < 2 → k < 3 →
       is_Some (item3 pile_2_2_3 i j k) ∧
       item2 table k (i * 2 + j) = item3 pile_2_2_3 i j k) ∧
    frameToPile 2 3 table = Ok pile_2_2_3.
Proof. apply (C3_pileToFrame_layout pile_2_2_3 2 3); reflexivity. Defined.

(** ** downSamplePairs: the first loop *)

Lemma untag_set_rType v r :
  untag (mkRow (pos1 r) (pos2 r) (<["rType" := v]> (cells r))) = untag r.
Proof. unfold untag. simpl. by rewrite delete_insert_eq. Qed.

Lemma rows_set_rType_untag v df :
  untag <$> rows (set_column "rType" v df) = untag <$> rows df.
Proof.
  unfold set_column. simpl. rewrite <- list_fmap_compose.
  apply list_fmap_ext. intros _ r _. apply untag_set_rType.
Qed.

Lemma rows_set_rType_tagged t df :
  Forall (has_rType t) (rows (set_column "rType" (VStr t) df)).
Proof.
  unfold set_column. simpl. apply Forall_fmap, Forall_true.
  intros r. unfold has_rType. simpl. apply lookup_insert_eq.
Qed.

Lemma columns_set_rType v df : "rType" ∈ columns (set_column "rType" v df).
Proof. unfold set_column. simpl. case_decide; [done|]. set_solver. Qed.

Lemma far_apart_untag D r : far_apart D (untag r) ↔ far_apart D r.
Proof. done. Qed.

Lemma filter_far_apart_untag D (l : list Row) :
  untag <$> filter (far_apart D) l = filter (far_apart D) (untag <$> l).
Proof.
  induction l as [|r l IH]; [done|].
  rewrite fmap_cons, !filter_cons. simpl.
  destruct (decide (far_apart D r)) as [Hr|Hr];
    destruct (decide (far_apart D (untag r))) as [Hu|Hu];
    rewrite ?far_apart_untag in Hu; try done.
  by rewrite fmap_cons, IH.
Qed.

Lemma store_rel_refl h : store_rel h h.
Proof. intros l. by destruct (h !! l). Qed.

Lemma store_rel_insert h0 (h : store) l df df' :
  store_rel h0 h → h !! l = Some df →
  untag <$> rows df' = untag <$> rows df →
  store_rel h0 (<[l := df']> h).
Proof.
  intros Hrel Hl Hrows k. specialize (Hrel k).
  destruct (decide (l = k)) as [->|Hne].
  - rewrite lookup_insert_eq. rewrite Hl in Hrel.
    destruct (h0 !! k); [congruence|done].
  - by rewrite lookup_insert_ne.
Qed.

Lemma store_rel_lookup h0 (h : store) l df0 :
  store_rel h0 h → h0 !! l = Some df0 →
  ∃ df, h !! l = Some df ∧ untag <$> rows df0 = untag <$> rows df.
Proof.
  intros Hrel Hl. specialize (Hrel l). rewrite Hl in Hrel.
  destruct (h !! l) as [df|]; [eauto|done].
Qed.

Lemma tag_and_filter_spec D e h0 (h : store) :
  store_rel h0 h →
  is_Some (h0 !! cis e) → is_Some (h0 !! trans e) →
  ∃ all h2,
    tag_and_filter D e h = Ok (all, h2) ∧ store_rel h0 h2 ∧ all_of D h0 e all.
Proof.
  intros Hrel [c0 Hc0] [t0 Ht0].
  destruct (store_rel_lookup _ _ _ _ Hrel Hc0) as (c & Hc & Hcr).
  destruct (store_rel_lookup _ _ _ _ Hrel Ht0) as (t & Ht & Htr).
  unfold tag_and_filter, deref. rewrite Hc. simpl.
  set (sc := set_column "rType" (VStr "cis") c).
  assert (store_rel h0 (<[cis e := sc]> h)) as Hrel1.
  { eapply store_rel_insert; [done..|]. apply rows_set_rType_untag. }
  destruct (decide (cis e = trans e)) as [Heq|Hne].
  - (* one frame under both names: the second tag overwrites the first *)
    assert (t0 = c0) as -> by congruence.
    rewrite <- Heq. rewrite lookup_insert_eq. simpl.
    rewrite lookup_insert_eq. simpl.
    set (st := set_column "rType" (VStr "trans") sc).
    eexists _, _. split; [reflexivity|]. split.
    { eapply store_rel_insert; [done|apply lookup_insert_eq|].
      apply rows_set_rType_untag. }
    exists c0, c0. rewrite <- Heq. repeat split; try done.
    + cbn [loc_distance concat columns rows]. apply elem_of_app. left. apply columns_set_rType.
    + cbn [loc_distance concat columns rows]. rewrite !filter_far_apart_untag. f_equal.
      rewrite !fmap_app. unfold st. rewrite !rows_set_rType_untag.
      unfold sc. rewrite rows_set_rType_untag. by rewrite Hcr.
    + cbn [loc_distance concat columns rows]. apply Forall_forall. intros r Hr.
      apply list_elem_of_filter in Hr as [_ Hr]. right.
      assert (r ∈ rows st) as Hin by (apply elem_of_app in Hr; tauto).
      split.
      * pose proof (rows_set_rType_tagged "trans" sc) as Hall.
        rewrite Forall_forall in Hall. by apply Hall.
      * rewrite Hcr. unfold sc in st.
        rewrite <- (rows_set_rType_untag (VStr "cis") c).
        rewrite <- (rows_set_rType_untag (VStr "trans")).
        by apply list_elem_of_fmap_2.
  - rewrite lookup_insert_ne by done. rewrite Ht. simpl.
    rewrite (lookup_insert_ne _ (trans e) (cis e)) by congruence.
    rewrite !lookup_insert_eq. simpl.
    set (st := set_column "rType" (VStr "trans") t).
    eexists _, _. split; [reflexivity|]. split.
    { eapply store_rel_insert; [done|by rewrite lookup_insert_ne|].
      apply rows_set_rType_untag. }
    exists c0, t0. repeat split; try done.
    + cbn [loc_distance concat columns rows]. apply elem_of_app. left. apply columns_set_rType.
    + cbn [loc_distance concat columns rows]. rewrite !filter_far_apart_untag. f_equal.
      rewrite !fmap_app. unfold st, sc. rewrite !rows_set_rType_untag.
      by rewrite Hcr, Htr.
    + cbn [loc_distance concat columns rows]. apply Forall_forall. intros r Hr.
      apply list_elem_of_filter in Hr as [_ Hr].
      apply elem_of_app in Hr as [Hr|Hr].
      * left. split.
        { pose proof (rows_set_rType_tagged "cis" c) as Hall.
          rewrite Forall_forall in Hall. by apply Hall. }
        rewrite Hcr. rewrite <- (rows_set_rType_untag (VStr "cis") c).
        by apply list_elem_of_fmap_2.
      * right. split.
        { pose proof (rows_set_rType_tagged "trans" t) as Hall.
          rewrite Forall_forall in Hall. by apply Hall. }
        rewrite Htr. rewrite <- (rows_set_rType_untag (VStr "trans") t).
        by apply list_elem_of_fmap_2.
Qed.

Lemma tag_all_spec D (d : pairsSamples) h0 (h : store) :
  store_rel h0 h → refs_ok h0 d →
  ∃ outDict h1,
    tag_all D d h = Ok (outDict, h1) ∧ store_rel h0 h1 ∧
    Forall2 (fun se so => se.1 = so.1 ∧
               ∃ all, so.2 = <["all" := all]> ∅ ∧ all_of D h0 se.2 all)
            d outDict.
Proof.
  revert h. induction d as [|[s e] d IH]; intros h Hrel Hok.
  - exists [], h. by repeat split.
  - apply Forall_cons in Hok as [[Hc Ht] Hok]. simpl in Hc, Ht.
    destruct (tag_and_filter_spec D e h0 h Hrel Hc Ht) as (all & h1 & Hstep & Hrel1 & Hall).
    destruct (IH h1 Hrel1 Hok) as (outDict & h2 & Hrest & Hrel2 & HF).
    exists ((s, <["all" := all]> ∅) :: outDict), h2.
    split; [|split; [done|]].
    + simpl. rewrite Hstep. simpl. rewrite Hrest. done.
    + constructor; [|done]. simpl. eauto.
Qed.

Lemma refs_ok_ex : refs_ok store_ex samples_ex.
Proof. repeat constructor; simpl; by eexists. Qed.

(** C1 (amended). Before the draw, the combined table of every sample holds
    exactly the rows of the concatenated cis and trans frames whose signed
    difference pos2 - pos1, in int64 arithmetic, is greater than Distance;
    one filter for the rows of both frames. *)
Theorem C1_signed_distance_filter (Distance : Z) (sampleDict : pairsSamples) (h : store) :
  refs_ok h sampleDict →
  ∃ outDict h1,
    tag_all Distance sampleDict h = Ok (outDict, h1) ∧
    Forall2 (fun se so =>
               se.1 = so.1 ∧
               ∃ c t all,
                 h !! cis se.2 = Some c ∧ h !! trans se.2 = Some t ∧
                 so.2 !! "all" = Some all ∧
                 untag <$> rows all =
                 untag <$> filter (fun r => (Distance < wrap64 (pos2 r - pos1 r))%Z)
                                  (rows c ++ rows t))
            sampleDict outDict.
Proof.
  intros Hok.
  destruct (tag_all_spec Distance sampleDict h h (store_rel_refl h) Hok)
    as (outDict & h1 & Hrun & _ & HF).
  exists outDict, h1. split; [done|].
  eapply Forall2_impl; [exact HF|].
  intros [s e] [s' o] [Hs (all & -> & c0 & t0 & Hc & Ht & _ & Hrows & _)].
  split; [done|]. exists c0, t0, all. simpl in *.
  by rewrite lookup_insert_eq.
Qed.

Lemma C1_signed_distance_filter_witness :
  ∃ outDict h1,
    tag_all 10000 samples_ex store_ex = Ok (outDict, h1) ∧
    Forall2 (fun se so =>
               se.1 = so.1 ∧
               ∃ c t all,
                 store_ex !! cis se.2 = Some c ∧ store_ex !! trans se.2 = Some t ∧
                 so.2 !! "all" = Some all ∧
                 untag <$> rows all =
                 untag <$> filter (fun r => (10000 < wrap64 (pos2 r - pos1 r))%Z)
                                  (rows c ++ rows t))
            samples_ex outDict.
Proof.
  apply (C1_signed_distance_filter 10000 samples_ex store_ex).
  repeat constructor; simpl; by eexists.
Defined.

(** C1 as the specification states it, with the absolute distance, fails:
    the trans pair from position 50000 to position 10 is 49990 apart and is
    dropped at Distance = 10000. *)
Lemma C1_absolute_distance_counterexample :
  ¬ ∃ outDict h1,
      tag_all 10000 samples_ex store_ex = Ok (outDict, h1) ∧
      Forall2 (fun se so =>
                 se.1 = so.1 ∧
                 ∃ c t all,
                   store_ex !! cis se.2 = Some c ∧ store_ex !! trans se.2 = Some t ∧
                   so.2 !! "all" = Some all ∧
                   untag <$> rows all =
                   untag <$> filter (far_apart_abs 10000) (rows c ++ rows t))
              samples_ex outDict.
Proof.
  intros (outDict & h1 & Hrun & HF).
  destruct (tag_all_spec 10000 samples_ex store_ex store_ex
              (store_rel_refl _) refs_ok_ex) as (outDict' & h1' & Hrun' & _ & HF').
  rewrite Hrun in Hrun'. injection Hrun' as <- <-.
  unfold samples_ex in HF, HF'.
  apply Forall2_cons_inv_l in HF as ([s o] & ? & [_ HA] & _ & ->).
  apply Forall2_cons_inv_l in HF' as ([s' o'] & ? & [_ HB] & _ & Heq).
  injection Heq as <- <- <-.
  destruct HA as (c & t & all & Hc & Ht & Hall & Hrows).
  destruct HB as (all' & Ho & c0 & t0 & Hc0 & Ht0 & _ & Hrows' & _).
  simpl in *. subst o. rewrite lookup_insert_eq in Hall. injection Hall as <-.
  rewrite Hc in Hc0. rewrite Ht in Ht0. injection Hc0 as <-. injection Ht0 as <-.
  injection Hc as <-. injection Ht as <-.
  rewrite Hrows in Hrows'. apply (f_equal length) in Hrows'.
  rewrite !length_fmap in Hrows'. vm_compute in Hrows'. discriminate.
Qed.

(** ** downSamplePairs: the draw and the split *)

Lemma py_min_le (l : list nat) n x : py_min l = Ok n → x ∈ l → n ≤ x.
Proof.
  destruct l as [|y l]; [done|]. simpl. intros [= <-].
  revert x. induction l as [|z l IH]; intros x Hx; simpl.
  - apply list_elem_of_singleton in Hx. lia.
  - apply elem_of_cons in Hx as [->|Hx].
    + etrans; [apply Nat.le_min_r|]. apply IH. left.
    + apply elem_of_cons in Hx as [->|Hx]; [lia|].
      etrans; [apply Nat.le_min_r|]. apply IH. by right.
Qed.

Lemma py_min_elem (l : list nat) n : py_min l = Ok n → n ∈ l.
Proof.
  destruct l as [|y l]; [done|]. simpl. intros [= <-].
  induction l as [|z l IH]; simpl; [left|].
  destruct (Nat.min_spec z (foldr Nat.min y l)) as [[_ ->]|[_ ->]].
  - right. left.
  - apply elem_of_cons in IH as [->|IH]; [left|]. by do 2 right.
Qed.

Lemma py_min_nonempty (l : list nat) : l ≠ [] → ∃ n, py_min l = Ok n.
Proof. destruct l; [done|]. simpl. eauto. Qed.

Lemma py_min_zeros (l : list nat) :
  l ≠ [] → Forall (fun x => x = 0) l → py_min l = Ok 0.
Proof.
  destruct l as [|y l]; [done|]. intros _ Hall.
  apply Forall_cons in Hall as [-> Hall]. simpl. f_equal.
  by induction Hall as [|z l -> _ IH].
Qed.

Lemma all_lens_spec D h (d : pairsSamples) outDict :
  Forall2 (fun se so => se.1 = so.1 ∧
             ∃ all, so.2 = <["all" := all]> ∅ ∧ all_of D h se.2 all)
          d outDict →
  all_lens outDict = Ok ((fun se => length (qualifying D h se.2)) <$> d).
Proof.
  induction 1 as [|[s e] [s' o] d outDict [_ (all & Ho & Hall)] _ IH]; [done|].
  simpl in *. subst o. rewrite lookup_insert_eq. simpl. rewrite IH. simpl.
  do 2 f_equal.
  destruct Hall as (c0 & t0 & Hc & Ht & _ & Hrows & _).
  unfold qualifying. rewrite Hc, Ht.
  apply (f_equal length) in Hrows. by rewrite !length_fmap in Hrows.
Qed.

Lemma tags_partition (l : list Row) :
  Forall (fun r => has_rType "cis" r ∨ has_rType "trans" r) l →
  length (filter (has_rType "cis") l) + length (filter (has_rType "trans") l)
  = length l ∧
  filter (has_rType "cis") l ++ filter (has_rType "trans") l ≡ₚ l.
Proof.
  induction 1 as [|r l Hr _ [IHlen IHperm]]; [done|].
  rewrite !filter_cons.
  destruct (decide (has_rType "cis" r)) as [Hc|Hc];
    destruct (decide (has_rType "trans" r)) as [Ht|Ht].
  - unfold has_rType in *. congruence.
  - simpl. split; [lia|]. by constructor.
  - simpl. split; [lia|].
    rewrite <- Permutation_middle. by constructor.
  - tauto.
Qed.

Lemma Forall2_with_left {X Y : Type} (P : X → Y → Prop) (Q : X → Prop) l k :
  Forall2 P l k → Forall Q l → Forall2 (fun x y => P x y ∧ Q x) l k.
Proof.
  induction 1 as [|x y l k HP _ IH]; intros HQ; [constructor|].
  apply Forall_cons in HQ as [HQx HQ]. constructor; auto.
Qed.

Lemma loc_rType_ok t df :
  "rType" ∈ columns df →
  loc_rType t df = Ok (mkFrame (columns df) (filter (has_rType t) (rows df))).
Proof. intros Hcol. unfold loc_rType. by rewrite decide_True. Qed.

Section draw.
Context {G : Type} (choice : G → nat → nat → list nat * G).
Hypothesis choice_ok : valid_choice choice.

Lemma sample_spec n df g :
  n ≤ length (rows df) →
  ∃ locs drawn g1,
    sample choice n df g = Ok (mkFrame (columns df) drawn, g1) ∧
    NoDup locs ∧ length locs = n ∧
    Forall2 (fun i r => rows df !! i = Some r) locs drawn.
Proof.
  intros Hn. unfold sample. rewrite decide_True by done.
  destruct (choice_ok g (length (rows df)) n Hn) as (Hnd & Hlen & Hlt).
  destruct (choice g (length (rows df)) n) as [locs g1]. simpl in *.
  destruct (mapM (fun i => rows df !! i) locs) as [drawn|] eqn:Hm.
  - exists locs, drawn, g1. simpl. repeat split; try done.
    by apply mapM_Some in Hm.
  - exfalso. assert (is_Some (mapM (fun i => rows df !! i) locs)) as [? HS].
    { apply mapM_is_Some. eapply Forall_impl; [exact Hlt|].
      intros i Hi. by apply lookup_lt_is_Some. }
    congruence.
Qed.

Lemma split_sample_spec n all g :
  "rType" ∈ columns all → n ≤ length (rows all) →
  ∃ o g1, split_sample choice n (<["all" := all]> ∅) g = Ok (o, g1) ∧
          split_of n all o.
Proof.
  intros Hcol Hn.
  destruct (sample_spec n all g Hn) as (locs & drawn & g1 & Hs & Hnd & Hlen & Hrows).
  unfold split_sample. rewrite lookup_insert_eq. simpl. rewrite Hs. simpl.
  rewrite lookup_insert_eq. simpl.
  rewrite loc_rType_ok by done. simpl.
  rewrite lookup_insert_ne by done. rewrite lookup_insert_eq. simpl.
  rewrite loc_rType_ok by done. simpl.
  rewrite !(lookup_insert_ne _ _ "all") by done. rewrite lookup_insert_eq. simpl.
  eexists _, _. split; [reflexivity|].
  exists locs, drawn, (mkFrame (columns all) (filter (has_rType "cis") drawn)),
    (mkFrame (columns all) (filter (has_rType "trans") drawn)).
  by repeat split.
Qed.

Lemma split_all_spec {X : Type} (R : X → DataFrame → Prop) n
    (d : list (string * X)) outDict g :
  Forall2 (fun se so =>
             se.1 = so.1 ∧
             ∃ all, so.2 = <["all" := all]> ∅ ∧ "rType" ∈ columns all ∧
                    n ≤ length (rows all) ∧ R se.2 all)
          d outDict →
  ∃ out g1,
    split_all choice n outDict g = Ok (out, g1) ∧
    Forall2 (fun se so =>
               se.1 = so.1 ∧
               ∃ all, R se.2 all ∧ n ≤ length (rows all) ∧ split_of n all so.2)
            d out.
Proof.
  intros HF. revert g.
  induction HF as [|[s e] [s' o] d outDict [Hs (all & Ho & Hcol & Hn & HR)] _ IH];
    intros g.
  - exists [], g. by split.
  - simpl in Hs, Ho, HR. subst s' o.
    destruct (split_sample_spec n all g Hcol Hn) as (o & g1 & Hrun & Ho).
    destruct (IH g1) as (out & g2 & Hrest & HF').
    exists ((s, o) :: out), g2. split.
    + simpl. rewrite Hrun. simpl. by rewrite Hrest.
    + constructor; [|done]. simpl. eauto.
Qed.

Lemma all_of_length D h e all :
  all_of D h e all → length (rows all) = length (qualifying D h e).
Proof.
  intros (c0 & t0 & Hc & Ht & _ & Hrows & _).
  unfold qualifying. rewrite Hc, Ht.
  apply (f_equal length) in Hrows. by rewrite !length_fmap in Hrows.
Qed.

Lemma downSamplePairs_spec D (d : pairsSamples) (h : store) g :
  refs_ok h d → d ≠ [] →
  ∃ out h1 g1 n,
    downSamplePairs choice d D h g = Ok (out, h1, g1) ∧
    py_min ((fun se => length (qualifying D h se.2)) <$> d) = Ok n ∧
    store_rel h h1 ∧
    Forall2 (fun se so =>
               se.1 = so.1 ∧
               ∃ all, all_of D h se.2 all ∧ n ≤ length (rows all) ∧
                      split_of n all so.2)
            d out.
Proof.
  intros Hok Hne.
  destruct (tag_all_spec D d h h (store_rel_refl h) Hok)
    as (outDict & h1 & Hrun & Hrel & HF).
  pose proof (all_lens_spec D h d outDict HF) as Hlens.
  destruct (py_min_nonempty ((fun se => length (qualifying D h se.2)) <$> d))
    as [n Hmin].
  { by destruct d. }
  assert (Forall (fun se => n ≤ length (qualifying D h se.2)) d) as Hle.
  { apply Forall_forall. intros se Hse.
    eapply py_min_le; [exact Hmin|]. apply list_elem_of_fmap. eauto. }
  destruct (split_all_spec (all_of D h) n d outDict g) as (out & g1 & Hsplit & HF').
  { eapply Forall2_impl; [exact (Forall2_with_left _ _ _ _ HF Hle)|].
    intros se so [[Hs (all & Ho & Hall)] Hn]. split; [done|].
    exists all. repeat split; try done.
    - by destruct Hall as (? & ? & ? & ? & ? & ?).
    - by rewrite (all_of_length _ _ _ _ Hall). }
  exists out, h1, g1, n. unfold downSamplePairs.
  rewrite Hrun. simpl. rewrite Hlens. simpl. rewrite Hmin. simpl.
  rewrite Hsplit. done.
Qed.
End draw.

Lemma first_rows_valid : valid_choice first_rows.
Proof.
  intros g len n Hn. simpl. split; [apply NoDup_seq|].
  split; [apply length_seq|].
  apply Forall_forall. intros i Hi. apply elem_of_seq in Hi. lia.
Qed.

Lemma split_of_tags n all o :
  Forall (fun r => has_rType "cis" r ∨ has_rType "trans" r) (rows all) →
  split_of n all o →
  ∃ c t drawn locs,
    o !! "cis" = Some c ∧ o !! "trans" = Some t ∧
    NoDup locs ∧ length locs = n ∧
    Forall2 (fun i r => rows all !! i = Some r) locs drawn ∧
    length (rows c) + length (rows t) = n ∧
    rows c ++ rows t ≡ₚ drawn.
Proof.
  intros Htags (locs & drawn & cp & tp & Hnd & Hlen & Hrows & -> & _ & _ & Hc & Ht).
  exists cp, tp, drawn, locs.
  assert (Forall (fun r => has_rType "cis" r ∨ has_rType "trans" r) drawn) as Hd.
  { rewrite Forall_forall in Htags. apply Forall_forall. intros r Hr.
    apply list_elem_of_lookup in Hr as [k Hk].
    destruct (Forall2_lookup_r _ _ _ _ _ Hrows Hk) as (i & _ & Hi).
    apply Htags. by eapply list_elem_of_lookup_2. }
  destruct (tags_partition drawn Hd) as [Hsum Hperm].
  rewrite Hc, Ht. repeat split; try done.
  rewrite Hsum. apply Forall2_length in Hrows. lia.
Qed.

(** C2. For a dictionary with at least one sample, downSamplePairs returns,
    and for every sample the rows of the cis and of the trans table are
    together minReads many, minReads being the least number of rows that
    pass the distance filter in a sample: it is the number of such rows of
    some sample, and no sample has fewer; these rows are, up to their
    order, the rows at minReads distinct positions of the sample's filtered
    combined table. *)
Theorem C2_downsample_counts {G : Type} (choice : G → nat → nat → list nat * G)
    (Distance : Z) (sampleDict : pairsSamples) (h : store) (g : G) :
  valid_choice choice → refs_ok h sampleDict → sampleDict ≠ [] →
  ∃ out h1 g1 minReads,
    downSamplePairs choice sampleDict Distance h g = Ok (out, h1, g1) ∧
    py_min ((fun se => length (qualifying Distance h se.2)) <$> sampleDict)
    = Ok minReads ∧
    minReads ∈ (fun se => length (qualifying Distance h se.2)) <$> sampleDict ∧
    Forall (fun se => minReads ≤ length (qualifying Distance h se.2)) sampleDict ∧
    Forall2 (fun se so =>
               se.1 = so.1 ∧
               ∃ c t locs drawn,
                 so.2 !! "cis" = Some c ∧ so.2 !! "trans" = Some t ∧
                 length (rows c) + length (rows t) = minReads ∧
                 NoDup locs ∧ length locs = minReads ∧
                 Forall2 (fun i r => untag <$> (qualifying Distance h se.2 !! i)
                                     = Some (untag r)) locs drawn ∧
                 rows c ++ rows t ≡ₚ drawn)
            sampleDict out.
Proof.
  intros Hch Hok Hne.
  destruct (downSamplePairs_spec choice Hch Distance sampleDict h g Hok Hne)
    as (out & h1 & g1 & n & Hrun & Hmin & _ & HF).
  exists out, h1, g1, n. split; [done|]. split; [done|].
  split; [by apply py_min_elem|].
  split.
  { apply Forall_forall. intros se Hse.
    eapply py_min_le; [exact Hmin|]. apply list_elem_of_fmap. eauto. }
  eapply Forall2_impl; [exact HF|].
  intros [s e] [s' o] [Hs (all & Hall & Hn & Hsplit)]. split; [done|]. simpl in *.
  destruct Hall as (c0 & t0 & Hc0 & Ht0 & _ & Hrows & Htags).
  destruct (split_of_tags n all o) as (c & t & drawn & locs & ? & ? & ? & ? & Hd & ? & ?);
    [|done|].
  { eapply Forall_impl; [exact Htags|]. simpl. tauto. }
  exists c, t, locs, drawn. repeat split; try done.
  eapply Forall2_impl; [exact Hd|]. intros i r Hi. simpl in Hi.
  unfold qualifying. rewrite Hc0, Ht0.
  rewrite <- list_lookup_fmap, <- Hrows, list_lookup_fmap. by rewrite Hi.
Qed.

Lemma C2_downsample_counts_witness :
  ∃ out h1 g1 minReads,
    downSamplePairs first_rows samples_ex 10000 store_ex tt = Ok (out, h1, g1) ∧
    py_min ((fun se => length (qualifying 10000 store_ex se.2)) <$> samples_ex)
    = Ok minReads ∧
    minReads ∈ (fun se => length (qualifying 10000 store_ex se.2)) <$> samples_ex ∧
    Forall (fun se => minReads ≤ length (qualifying 10000 store_ex se.2)) samples_ex ∧
    Forall2 (fun se so =>
               se.1 = so.1 ∧
               ∃ c t locs drawn,
                 so.2 !! "cis" = Some c ∧ so.2 !! "trans" = Some t ∧
                 length (rows c) + length (rows t) = minReads ∧
                 NoDup locs ∧ length locs = minReads ∧
                 Forall2 (fun i r => untag <$> (qualifying 10000 store_ex se.2 !! i)
                                     = Some (untag r)) locs drawn ∧
                 rows c ++ rows t ≡ₚ drawn)
            samples_ex out.
Proof.
  apply (C2_downsample_counts first_rows 10000 samples_ex store_ex tt).
  - exact first_rows_valid.
  - exact refs_ok_ex.
  - discriminate.
Defined.

(** C9 (amended). When no row of any sample passes the distance filter, so
    that minReads is 0, downSamplePairs on a dictionary with at least one
    sample raises nothing: it returns, for every sample, a cis and a trans
    table without rows. *)
Theorem C9_zero_reads_returns_empty {G : Type} (choice : G → nat → nat → list nat * G)
    (Distance : Z) (sampleDict : pairsSamples) (h : store) (g : G) :
  valid_choice choice → refs_ok h sampleDict → sampleDict ≠ [] →
  Forall (fun se => qualifying Distance h se.2 = []) sampleDict →
  ∃ out h1 g1,
    downSamplePairs choice sampleDict Distance h g = Ok (out, h1, g1) ∧
    Forall2 (fun se so =>
               se.1 = so.1 ∧
               ∃ c t, so.2 !! "cis" = Some c ∧ so.2 !! "trans" = Some t ∧
                      rows c = [] ∧ rows t = [])
            sampleDict out.
Proof.
  intros Hch Hok Hne Hzero.
  destruct (downSamplePairs_spec choice Hch Distance sampleDict h g Hok Hne)
    as (out & h1 & g1 & n & Hrun & Hmin & _ & HF).
  assert (n = 0) as ->.
  { rewrite py_min_zeros in Hmin; [congruence|by destruct sampleDict|].
    apply Forall_fmap. eapply Forall_impl; [exact Hzero|].
    intros se Hse. simpl. by rewrite Hse. }
  exists out, h1, g1. split; [done|].
  eapply Forall2_impl; [exact HF|].
  intros [s e] [s' o] [Hs (all & _ & _ & Hsplit)]. split; [done|]. simpl in *.
  destruct Hsplit as (locs & drawn & cp & tp & _ & Hlen & Hrows & -> & _ & _ & Hc & Ht).
  apply nil_length_inv in Hlen. subst locs. apply Forall2_nil_inv_l in Hrows. subst drawn.
  exists cp, tp. by repeat split.
Qed.

Lemma C9_zero_reads_returns_empty_witness :
  ∃ out h1 g1,
    downSamplePairs first_rows samples_ex 100000 store_ex tt = Ok (out, h1, g1) ∧
    Forall2 (fun se so =>
               se.1 = so.1 ∧
               ∃ c t, so.2 !! "cis" = Some c ∧ so.2 !! "trans" = Some t ∧
                      rows c = [] ∧ rows t = [])
            samples_ex out.
Proof.
  apply (C9_zero_reads_returns_empty first_rows 100000 samples_ex store_ex tt).
  - exact first_rows_valid.
  - exact refs_ok_ex.
  - discriminate.
  - repeat constructor.
Defined.

(** C9 as the specification states it fails: at Distance = 100000 no row of
    the only sample passes the filter, minReads is 0, and the call returns
    instead of raising. *)
Lemma C9_zero_reads_counterexample :
  Forall (fun se => qualifying 100000 store_ex se.2 = []) samples_ex ∧
  py_min ((fun se => length (qualifying 100000 store_ex se.2)) <$> samples_ex) = Ok 0 ∧
  is_error (downSamplePairs first_rows samples_ex 100000 store_ex tt) = false.
Proof. split; [repeat constructor|]. split; vm_compute; reflexivity. Qed.

(** C10. For a dictionary with at least one sample, what is returned for a
    sample has the keys "cis" and "trans" and no other; both tables have a
    column "rType"; every row of the cis table has "cis" there and is,
    that cell apart, a row of the sample's cis frame, and every row of the
    trans table has "trans" there and is, that cell apart, a row of the
    sample's trans frame. *)
Theorem C10_output_tables {G : Type} (choice : G → nat → nat → list nat * G)
    (Distance : Z) (sampleDict : pairsSamples) (h : store) (g : G) :
  valid_choice choice → refs_ok h sampleDict → sampleDict ≠ [] →
  ∃ out h1 g1,
    downSamplePairs choice sampleDict Distance h g = Ok (out, h1, g1) ∧
    Forall2 (fun se so =>
               se.1 = so.1 ∧
               dom so.2 = ({["cis"; "trans"]} : gset string) ∧
               ∃ c0 t0 c t,
                 h !! cis se.2 = Some c0 ∧ h !! trans se.2 = Some t0 ∧
                 so.2 !! "cis" = Some c ∧ so.2 !! "trans" = Some t ∧
                 "rType" ∈ columns c ∧ "rType" ∈ columns t ∧
                 Forall (fun r => cells r !! "rType" = Some (VStr "cis") ∧
                                  untag r ∈ untag <$> rows c0) (rows c) ∧
                 Forall (fun r => cells r !! "rType" = Some (VStr "trans") ∧
                                  untag r ∈ untag <$> rows t0) (rows t))
            sampleDict out.
Proof.
  intros Hch Hok Hne.
  destruct (downSamplePairs_spec choice Hch Distance sampleDict h g Hok Hne)
    as (out & h1 & g1 & n & Hrun & _ & _ & HF).
  exists out, h1, g1. split; [done|].
  eapply Forall2_impl; [exact HF|].
  intros [s e] [s' o] [Hs (all & Hall & _ & Hsplit)]. split; [done|]. simpl in *.
  destruct Hall as (c0 & t0 & Hc0 & Ht0 & Hcol & _ & Htags).
  destruct Hsplit as (locs & drawn & cp & tp & _ & _ & Hrows & -> & Hcc & Hct & Hc & Ht).
  split.
  { rewrite !dom_insert_L, dom_empty_L. set_solver. }
  exists c0, t0, cp, tp. rewrite Hcc, Hct, Hc, Ht.
  assert (∀ r, r ∈ drawn → r ∈ rows all) as Hsub.
  { intros r Hr. apply list_elem_of_lookup in Hr as [k Hk].
    destruct (Forall2_lookup_r _ _ _ _ _ Hrows Hk) as (i & _ & Hi).
    by eapply list_elem_of_lookup_2. }
  rewrite Forall_forall in Htags.
  repeat split; try done.
  - apply Forall_forall. intros r Hr. apply list_elem_of_filter in Hr as [Hcis Hr].
    split; [done|].
    destruct (Htags r (Hsub r Hr)) as [[_ Hin]|[Htr _]]; [done|].
    unfold has_rType in *. congruence.
  - apply Forall_forall. intros r Hr. apply list_elem_of_filter in Hr as [Htr Hr].
    split; [done|].
    destruct (Htags r (Hsub r Hr)) as [[Hcis _]|[_ Hin]]; [|done].
    unfold has_rType in *. congruence.
Qed.

Lemma C10_output_tables_witness :
  ∃ out h1 g1,
    downSamplePairs first_rows samples_ex 10000 store_ex tt = Ok (out, h1, g1) ∧
    Forall2 (fun se so =>
               se.1 = so.1 ∧
               dom so.2 = ({["cis"; "trans"]} : gset string) ∧
               ∃ c0 t0 c t,
                 store_ex !! cis se.2 = Some c0 ∧ store_ex !! trans se.2 = Some t0 ∧
                 so.2 !! "cis" = Some c ∧ so.2 !! "trans" = Some t ∧
                 "rType" ∈ columns c ∧ "rType" ∈ columns t ∧
                 Forall (fun r => cells r !! "rType" = Some (VStr "cis") ∧
                                  untag r ∈ untag <$> rows c0) (rows c) ∧
                 Forall (fun r => cells r !! "rType" = Some (VStr "trans") ∧
                                  untag r ∈ untag <$> rows t0) (rows t))
            samples_ex out.
Proof.
  apply (C10_output_tables first_rows 10000 samples_ex store_ex tt).
  - exact first_rows_valid.
  - exact refs_ok_ex.
  - discriminate.
Defined.

(** ** slidingDiamond *)

Lemma nat_Q_S n : (nat_Q (S n) == nat_Q n + 1)%Q.
Proof.
  unfold nat_Q. rewrite Nat2Z.inj_succ. unfold Z.succ. by rewrite inject_Z_plus.
Qed.

Lemma fl_eq_Fin_inv x q : fl_eq x (Fin q) → ∃ a, x = Fin a ∧ (a == q)%Q.
Proof. destruct x; simpl; try done. eauto. Qed.

Lemma fsum_arith (c : Q) s len (xs : list fl) :
  Forall2 (fun j x => fl_eq x (Fin (nat_Q j - c))) (seq s len) xs →
  fl_eq (fsum xs)
        (Fin (nat_Q len * nat_Q s + nat_Q len * (nat_Q len - 1) / 2 - nat_Q len * c)).
Proof.
  revert s xs. induction len as [|len IH]; intros s xs HF.
  - apply Forall2_nil_inv_l in HF as ->. simpl. unfold nat_Q. simpl. field.
  - simpl in HF. apply Forall2_cons_inv_l in HF as (x & xs' & Hx & HF & ->).
    apply fl_eq_Fin_inv in Hx as (a & -> & Ha).
    destruct (fl_eq_Fin_inv _ _ (IH _ _ HF)) as (a' & Ha' & Hq).
    simpl. rewrite Ha'. simpl. rewrite Ha, Hq. rewrite !nat_Q_S. field.
Qed.

Lemma nat_Q_nonneg n : (0 <= nat_Q n)%Q.
Proof.
  unfold nat_Q. change 0%Q with (inject_Z 0). rewrite <- Zle_Qle. lia.
Qed.

Lemma fl_eq_Fin_r x q q' : fl_eq x (Fin q) → (q == q')%Q → fl_eq x (Fin q').
Proof. destruct x; simpl; try done. intros -> ->. reflexivity. Qed.

Lemma bin_value hw i : fl_eq (bin hw i) (Fin (nat_Q i + nat_Q hw / 2)).
Proof.
  unfold bin, mean.
  assert (Forall2 (fun j x => fl_eq x (Fin (nat_Q j - 0))) (seq i (hw + 1))
                  (of_int <$> (Z.of_nat <$> seq i (hw + 1)))) as HF.
  { rewrite <- list_fmap_compose. apply Forall2_fmap_r, Forall_Forall2_diag.
    apply Forall_true. intros j. simpl. unfold nat_Q. ring. }
  destruct (fl_eq_Fin_inv _ _ (fsum_arith _ _ _ _ HF)) as (a & -> & Ha).
  rewrite !length_fmap, length_seq.
  change (of_int (Z.of_nat (hw + 1))) with (Fin (nat_Q (hw + 1))).
  pose proof (nat_Q_nonneg hw) as Hnn.
  assert (nat_Q (hw + 1) == nat_Q hw + 1)%Q as HS.
  { rewrite Nat.add_1_r. apply nat_Q_S. }
  simpl.
  destruct (Qeq_bool (nat_Q (hw + 1)) 0) eqn:Hz.
  { apply Qeq_bool_iff in Hz. rewrite HS in Hz. lra. }
  simpl. rewrite Ha, HS. field. lra.
Qed.

Lemma fleb_bin hw i : fleb (bin hw i) (bin hw (S i)) = true.
Proof.
  destruct (fl_eq_Fin_inv _ _ (bin_value hw i)) as (a & -> & Ha).
  destruct (fl_eq_Fin_inv _ _ (bin_value hw (S i))) as (b & -> & Hb).
  simpl. apply Qle_bool_iff. rewrite Ha, Hb, nat_Q_S. lra.
Qed.

Lemma fsort_ascending (f : nat → fl) s n :
  (∀ i, fleb (f i) (f (S i)) = true) →
  fsort (f <$> seq s n) = f <$> seq s n.
Proof.
  intros Hf. revert s. induction n as [|n IH]; intros s; [done|].
  simpl. unfold fsort, sort_by in *. simpl. rewrite IH.
  destruct n as [|n]; [done|]. simpl. by rewrite Hf.
Qed.

Lemma no_nan_bins hw (l : list nat) : existsb isnan (bin hw <$> l) = false.
Proof.
  induction l as [|i l IH]; [done|]. rewrite fmap_cons. cbn [existsb]. rewrite IH.
  by destruct (fl_eq_Fin_inv _ _ (bin_value hw i)) as (a & -> & _).
Qed.

Lemma lookup_total_bins hw n k :
  k < n → (bin hw <$> seq 0 n) !!! k = bin hw k.
Proof.
  intros Hk. apply list_lookup_total_correct.
  by rewrite list_lookup_fmap, lookup_seq_lt.
Qed.

Lemma median_bins hw n :
  0 < n →
  fl_eq (median (bin hw <$> seq 0 n)) (Fin ((nat_Q n - 1) / 2 + nat_Q hw / 2)).
Proof.
  intros Hn. unfold median. rewrite no_nan_bins.
  rewrite fsort_ascending by apply fleb_bin.
  rewrite length_fmap, length_seq.
  destruct (Nat.eqb_spec n 0) as [|_]; [lia|].
  destruct (Nat.even n) eqn:Hev.
  - apply Nat.even_spec in Hev as [k ->].
    rewrite (Nat.mul_comm 2 k), Nat.div_mul by done.
    rewrite !lookup_total_bins by lia.
    destruct (fl_eq_Fin_inv _ _ (bin_value hw (k - 1))) as (a & -> & Ha).
    destruct (fl_eq_Fin_inv _ _ (bin_value hw k)) as (b & -> & Hb).
    unfold mean. simpl. rewrite Ha, Hb.
    assert (nat_Q k == nat_Q (k - 1) + 1)%Q as Hk.
    { replace k with (S (k - 1)) at 1 by lia. apply nat_Q_S. }
    assert (nat_Q (k * 2) == 2 * nat_Q k)%Q as H2.
    { unfold nat_Q. rewrite Nat2Z.inj_mul, inject_Z_mult. simpl. ring. }
    rewrite H2, Hk. field.
  - assert (Nat.odd n = true) as Hodd by (rewrite <- Nat.negb_even, Hev; done).
    apply Nat.odd_spec in Hodd as [k ->].
    replace ((2 * k + 1) `div` 2) with k.
    2:{ rewrite Nat.mul_comm, Nat.div_add_l by done. simpl. lia. }
    rewrite lookup_total_bins by lia.
    eapply fl_eq_Fin_r; [apply bin_value|].
    assert (nat_Q (2 * k + 1) == 2 * nat_Q k + 1)%Q as H2.
    { rewrite Nat.add_1_r, nat_Q_S. unfold nat_Q.
      rewrite Nat2Z.inj_mul, inject_Z_mult. simpl. ring. }
    rewrite H2. field.
Qed.

Lemma diamond_loop_spec hw ncols idxs b :
  length (diamond_loop hw ncols idxs b).1.2 = length idxs ∧
  (diamond_loop hw ncols idxs b).2 = bin hw <$> idxs.
Proof.
  revert b. induction idxs as [|i idxs IH]; intros b; [done|].
  simpl. specialize (IH (scrub_window i (i + hw + 1) ncols b)).
  destruct (diamond_loop hw ncols idxs _) as [[b2 ds] xs]. simpl in *.
  destruct IH as [-> ->]. done.
Qed.

Lemma nat_Q_sub a b : b ≤ a → (nat_Q (a - b) == nat_Q a - nat_Q b)%Q.
Proof.
  intros Hle. unfold nat_Q. rewrite Nat2Z.inj_sub by done.
  unfold Z.sub. rewrite inject_Z_plus, inject_Z_opp. ring.
Qed.

Lemma offsets_value hw n :
  0 < n →
  Forall2 (fun j x => fl_eq x (Fin (nat_Q j - (nat_Q n - 1) / 2)))
          (seq 0 n)
          ((fun x => fsub x (median (bin hw <$> seq 0 n))) <$> (bin hw <$> seq 0 n)).
Proof.
  intros Hn. rewrite <- list_fmap_compose.
  apply Forall2_fmap_r, Forall_Forall2_diag, Forall_true. intros j. simpl.
  destruct (fl_eq_Fin_inv _ _ (median_bins hw n Hn)) as (m & -> & Hm).
  destruct (fl_eq_Fin_inv _ _ (bin_value hw j)) as (a & -> & Ha).
  simpl. rewrite Ha, Hm. ring.
Qed.

(** C5. For a matrix with at least sideLen div 2 + 1 rows, slidingDiamond
    returns rows - sideLen div 2 values and as many offsets; the offsets sum
    to 0 and are symmetric around 0: the k-th is the negative of the k-th
    from the end. *)
Theorem C5_slidingDiamond_offsets (array : ndarray fl) (nrows ncols sideLen : nat) :
  shape array = [nrows; ncols] →
  sideLen `div` 2 + 1 ≤ nrows →
  ∃ offsets values array',
    slidingDiamond array sideLen = Ok (offsets, values, array') ∧
    length values = nrows - sideLen `div` 2 ∧
    length offsets = nrows - sideLen `div` 2 ∧
    fl_eq (fsum offsets) (Fin 0) ∧
    ∀ k, k < length offsets →
         fl_eq (offsets !!! k) (fneg (offsets !!! (length offsets - 1 - k))).
Proof.
  intros Hsh Hrows. unfold slidingDiamond. rewrite Hsh.
  set (hw := sideLen `div` 2) in *. set (n := nrows - hw).
  assert (0 < n) as Hn by (unfold n; lia).
  pose proof (diamond_loop_spec hw ncols (seq 0 n) (buf array)) as [Hlen Hbins].
  destruct (diamond_loop hw ncols (seq 0 n) (buf array)) as [[b ds] xs].
  simpl in Hlen, Hbins. subst xs. rewrite length_seq in Hlen.
  eexists _, _, _. split; [reflexivity|].
  pose proof (offsets_value hw n Hn) as Hoff.
  set (offsets := (fun x => fsub x (median (bin hw <$> seq 0 n))) <$> (bin hw <$> seq 0 n)) in *.
  assert (length offsets = n) as Hlo.
  { unfold offsets. by rewrite !length_fmap, length_seq. }
  split; [done|]. split; [done|]. split.
  - eapply fl_eq_Fin_r; [apply (fsum_arith _ _ _ _ Hoff)|].
    change (nat_Q 0) with 0%Q. field.
  - intros k Hk. rewrite Hlo in *.
    assert (∀ j, j < n → fl_eq (offsets !!! j) (Fin (nat_Q j - (nat_Q n - 1) / 2))) as Hat.
    { intros j Hj.
      destruct (lookup_lt_is_Some_2 offsets j ltac:(lia)) as [x Hx].
      rewrite (list_lookup_total_correct _ _ _ Hx).
      eapply (Forall2_lookup_lr _ _ _ j j x Hoff); [|done].
      by rewrite lookup_seq_lt. }
    destruct (fl_eq_Fin_inv _ _ (Hat k Hk)) as (a & -> & Ha).
    destruct (fl_eq_Fin_inv _ _ (Hat (n - 1 - k) ltac:(lia))) as (a2 & -> & Hb).
    simpl. rewrite Ha, Hb, !nat_Q_sub by lia.
    change (nat_Q 1) with 1%Q. field.
Qed.

Lemma C5_slidingDiamond_offsets_witness :
  ∃ offsets values array',
    slidingDiamond matrix_ex 2 = Ok (offsets, values, array') ∧
    length values = 3 - 2 `div` 2 ∧
    length offsets = 3 - 2 `div` 2 ∧
    fl_eq (fsum offsets) (Fin 0) ∧
    ∀ k, k < length offsets →
         fl_eq (offsets !!! k) (fneg (offsets !!! (length offsets - 1 - k))).
Proof.
  apply (C5_slidingDiamond_offsets matrix_ex 3 3 2); [reflexivity|simpl; lia].
Defined.

(** ** Inputs are written to *)

(** C6. Neither function leaves its input alone.  slidingDiamond turns the
    infinite cell at [0][0] of the caller's matrix into NaN, and
    downSamplePairs adds the column "rType" to the caller's cis frame. *)
Theorem C6_inputs_are_written_to :
  (∃ offsets values array',
     slidingDiamond matrix_ex 2 = Ok (offsets, values, array') ∧
     item2 matrix_ex 0 0 = Some PInf ∧
     item2 array' 0 0 = Some NaN ∧
     array' ≠ matrix_ex) ∧
  (∃ out h1 g1 cis',
     downSamplePairs first_rows samples_ex 10000 store_ex tt = Ok (out, h1, g1) ∧
     store_ex !! cis (mkSample 0 1) = Some cis_ex ∧
     h1 !! cis (mkSample 0 1) = Some cis' ∧
     columns cis_ex = ["chrom1"; "chrom2"] ∧
     columns cis' = ["chrom1"; "chrom2"; "rType"] ∧
     cis' ≠ cis_ex).
Proof.
  split.
  - eexists _, _, _. split; [vm_compute; reflexivity|].
    split; [reflexivity|]. split; [reflexivity|]. discriminate.
  - eexists _, _, _, _. split; [vm_compute; reflexivity|].
    split; [reflexivity|]. split; [vm_compute; reflexivity|].
    split; [reflexivity|]. split; [reflexivity|]. discriminate.
Qed.

(** ** assignRegions2d *)

Lemma concat_axis1_both {A B : Type} (l1 : list A) (l2 : list B) x y :
  (Some x, Some y) ∈ concat_axis1 l1 l2 →
  ∃ i, l1 !! i = Some x ∧ l2 !! i = Some y.
Proof.
  revert l2. induction l1 as [|a l1 IH]; intros l2 Hin.
  - change ((Some x, Some y) ∈ (fun y : B => (@None A, Some y)) <$> l2) in Hin.
    apply list_elem_of_fmap in Hin as (? & [=] & _).
  - destruct l2 as [|b l2].
    + change ((Some x, Some y) ∈ (fun x : A => (Some x, @None B)) <$> (a :: l1)) in Hin.
      apply list_elem_of_fmap in Hin as (? & [=] & _).
    + simpl in Hin. apply elem_of_cons in Hin as [[= -> ->]|Hin].
      * by exists 0.
      * destruct (IH _ Hin) as (i & ? & ?). by exists (S i).
Qed.

(** C4. Every row that assignRegions2d returns comes from two windows at
    one index that were both assigned a region, and the same one; so no
    row with two different regions and no row with two missing regions is
    returned. *)
Theorem C4_same_region_only {R Arm : Type} `{EqDecision R} (cooltools : Snipping R Arm)
    (window binsize : Z) (chroms1 : list string) (positions1 : list Z)
    (chroms2 : list string) (positions2 : list Z) (arms : list Arm) :
  Forall (fun row =>
            ∃ i w1 w2 r,
              assignRegions cooltools window binsize chroms1 positions1 arms !! i = Some w1 ∧
              assignRegions cooltools window binsize chroms2 positions2 arms !! i = Some w2 ∧
              w_region w1 = Some r ∧ w_region w2 = Some r ∧
              row = small_row (Some w1, Some w2) ∧
              region row = Some r)
         (assignRegions2d cooltools window binsize chroms1 positions1
                          chroms2 positions2 arms).
Proof.
  unfold assignRegions2d. apply Forall_fmap, Forall_forall.
  intros [o1 o2] Hin. apply list_elem_of_In, filter_In in Hin as [Hin Hsame].
  apply list_elem_of_In in Hin.
  destruct o1 as [w1|]; [|done]. destruct o2 as [w2|]; [|done].
  simpl in Hsame.
  destruct (w_region w1) as [r1|] eqn:H1; [|done].
  destruct (w_region w2) as [r2|] eqn:H2; [|done].
  apply bool_decide_eq_true in Hsame as <-.
  destruct (concat_axis1_both _ _ _ _ Hin) as (i & Hi1 & Hi2).
  exists i, w1, w2, r1. unfold small_row. simpl. by rewrite H1.
Qed.

(** On the stand-in: of three anchor pairs, the first has one region on both
    sides, the second two different regions, the third none on either side;
    only the first is returned. *)
Example assignRegions2d_ex :
  assignRegions2d snipping_ex 10 1
    ["chr1"; "chr1"; "chr1"] [100; 100; 5000]%Z
    ["chr1"; "chr2"; "chr1"] [200; 200; 6000]%Z [tt]
  = [mkWindow2d (Some "chr1") (Some 90%Z) (Some 110%Z)
                (Some "chr1") (Some 190%Z) (Some 210%Z) (Some "chr1")].
Proof. reflexivity. Qed.

(** ** getPairingScore *)

Lemma isnan_shift m x : isnan (shift m x) = isnan x.
Proof. by destruct x. Qed.

Lemma fleb_shift m x y : fleb (shift m x) (shift m y) = fleb x y.
Proof.
  destruct x as [a| | |], y as [b| | |]; try done. simpl.
  apply eq_true_iff_eq. rewrite !Qle_bool_iff. split; intros; lra.
Qed.

Lemma insert_by_shift m x l :
  insert_by fleb (shift m x) (shift m <$> l) = shift m <$> insert_by fleb x l.
Proof.
  induction l as [|y l IH]; [done|].
  rewrite fmap_cons. cbn [insert_by]. rewrite fleb_shift.
  destruct (fleb x y); [done|]. by rewrite fmap_cons, IH.
Qed.

Lemma fsort_shift m (l : list fl) : fsort (shift m <$> l) = shift m <$> fsort l.
Proof.
  induction l as [|x l IH]; [done|].
  rewrite fmap_cons. unfold fsort, sort_by in *. cbn [foldr].
  by rewrite IH, insert_by_shift.
Qed.

Lemma existsb_isnan_shift m (l : list fl) : existsb isnan (shift m <$> l) = existsb isnan l.
Proof.
  induction l as [|x l IH]; [done|].
  rewrite fmap_cons. cbn [existsb]. by rewrite IH, isnan_shift.
Qed.

Lemma lookup_total_shift m (l : list fl) i : (shift m <$> l) !!! i = shift m (l !!! i).
Proof.
  rewrite !list_lookup_total_alt, list_lookup_fmap. by destruct (l !! i).
Qed.

Lemma filter_notnan_shift m (l : list fl) :
  filter (fun x => notnan x = true) (shift m <$> l)
  = shift m <$> filter (fun x => notnan x = true) l.
Proof.
  induction l as [|x l IH]; [done|].
  rewrite fmap_cons, !filter_cons.
  destruct x; simpl; repeat case_decide; try done; by rewrite ?fmap_cons, IH.
Qed.

Lemma median_shift m (l : list fl) : median l = Fin m → fl_eq (median (shift m <$> l)) (Fin 0).
Proof.
  unfold median. rewrite existsb_isnan_shift, fsort_shift, length_fmap.
  destruct (existsb isnan l); [done|].
  destruct (length l =? 0); [done|].
  rewrite !lookup_total_shift.
  destruct (Nat.even (length l)).
  - destruct (fsort l !!! (length l `div` 2 - 1)) as [a| | |],
             (fsort l !!! (length l `div` 2)) as [b| | |]; try done.
    unfold mean. simpl. intros [= <-]. field.
  - intros ->. simpl. ring.
Qed.

Lemma scores_dropna (l : list ScoreRow) : PairingScore <$> dropna l = valid_scores l.
Proof.
  unfold dropna, valid_scores. induction l as [|r l IH]; [done|].
  rewrite fmap_cons, !filter_cons.
  destruct (decide (notnan (PairingScore r) = true)); [|done].
  by rewrite fmap_cons, IH.
Qed.

Lemma scores_subtract_median (l : list ScoreRow) :
  PairingScore <$> subtract_median l
  = (fun x => fsub x (median (valid_scores l))) <$> (PairingScore <$> l).
Proof.
  unfold subtract_median. rewrite scores_dropna, <- !list_fmap_compose.
  by apply list_fmap_ext.
Qed.

(** C7 (amended). With norm=True, when the median of the scores that are
    not NaN is finite, the median of the returned scores that are not NaN
    is 0; and a score that is NaN stays NaN, whatever the median. *)
Theorem C7_median_zero_when_finite (output : list Bin) (summarized : list fl) :
  isfinite (median (valid_scores (getPairingScore output summarized false))) = true →
  fl_eq (median (valid_scores (getPairingScore output summarized true))) (Fin 0) ∧
  ∀ k r0,
    getPairingScore output summarized false !! k = Some r0 →
    PairingScore r0 = NaN →
    ∃ r, getPairingScore output summarized true !! k = Some r ∧ PairingScore r = NaN.
Proof.
  unfold getPairingScore. set (scored := set_scores output summarized).
  intros Hfin. split.
  - destruct (median (valid_scores scored)) as [m| | |] eqn:Hm; try done.
    unfold valid_scores at 1. rewrite scores_subtract_median, Hm.
    change (fun x => fsub x (Fin m)) with (shift m).
    rewrite filter_notnan_shift. by apply median_shift.
  - intros k r0 Hk Hnan. unfold subtract_median.
    rewrite list_lookup_fmap, Hk. simpl. eexists. split; [done|].
    simpl. by rewrite Hnan.
Qed.

Lemma C7_median_zero_when_finite_witness :
  fl_eq (median (valid_scores (getPairingScore bins_ex scores_ex true))) (Fin 0) ∧
  ∀ k r0,
    getPairingScore bins_ex scores_ex false !! k = Some r0 →
    PairingScore r0 = NaN →
    ∃ r, getPairingScore bins_ex scores_ex true !! k = Some r ∧ PairingScore r = NaN.
Proof. apply (C7_median_zero_when_finite bins_ex scores_ex). reflexivity. Defined.

(** C7 as the specification states it fails when the median is infinite:
    of the scores -inf, -inf and 1 the median is -inf, the returned scores
    are NaN, NaN and +inf, and the median of those that are not NaN is
    +inf. *)
Lemma C7_infinite_median_counterexample :
  valid_scores (getPairingScore bins_ex log_scores_ex false) ≠ [] ∧
  PairingScore <$> getPairingScore bins_ex log_scores_ex true = [NaN; NaN; PInf] ∧
  ¬ fl_eq (median (valid_scores (getPairingScore bins_ex log_scores_ex true))) (Fin 0).
Proof. split; [discriminate|]. split; [reflexivity|]. vm_compute. tauto. Qed.

(** ** getExpected *)

Lemma wrap64_small (z : Z) : (- 2 ^ 63 ≤ z < 2 ^ 63)%Z → wrap64 z = z.
Proof. intros Hz. unfold wrap64. rewrite Z.mod_small; lia. Qed.

Lemma sum_filter_bounds {A : Type} (f : A → Z) (P : A → Prop) `{∀ x, Decision (P x)}
    (l : list A) :
  Forall (fun x => (0 ≤ f x)%Z) l →
  (0 ≤ foldr Z.add 0 (f <$> filter P l) ≤ foldr Z.add 0 (f <$> l))%Z.
Proof.
  induction 1 as [|x l Hx _ IH]; [done|].
  rewrite filter_cons. destruct (decide (P x)); rewrite ?fmap_cons; cbn [foldr]; lia.
Qed.

Lemma sum_nonneg {A : Type} (f : A → Z) (l : list A) :
  Forall (fun x => (0 ≤ f x)%Z) l → (0 ≤ foldr Z.add 0 (f <$> l))%Z.
Proof. induction 1; [done|]. rewrite fmap_cons. cbn [foldr]. lia. Qed.

Lemma sum_zero_all_zero {A : Type} (f : A → Z) (l : list A) :
  Forall (fun x => (0 ≤ f x)%Z) l →
  foldr Z.add 0%Z (f <$> l) = 0%Z →
  Forall (fun x => f x = 0%Z) l.
Proof.
  induction 1 as [|x l Hx Hl IH]; [done|].
  rewrite fmap_cons. cbn [foldr]. intros Hsum.
  pose proof (sum_nonneg f l Hl).
  constructor; [lia|]. apply IH. lia.
Qed.

Lemma nansum_zero (l : list fl) :
  Forall (fun x => x = NaN ∨ fl_eq x (Fin 0)) l →
  fl_eq (nansum l) (Fin 0).
Proof.
  unfold nansum. induction 1 as [|x l Hx _ IH]; [simpl; reflexivity|].
  rewrite filter_cons. destruct Hx as [->|Hx]; [done|].
  destruct x as [a| | |]; try done. simpl in *.
  destruct (fsum _) as [b| | |]; try done. simpl in *. rewrite Hx, IH. ring.
Qed.

Lemma fdiv_zero_zero (x : fl) : fl_eq x (Fin 0) → fdiv x (of_int 0) = NaN.
Proof.
  destruct x as [a| | |]; try done. simpl. intros Ha.
  apply Qeq_bool_iff in Ha. by rewrite Ha.
Qed.

Lemma concat_regions_rows expected :
  Forall2 (fun r d => e_n_valid r = n_valid d ∧ e_balanced_sum r = balanced_sum d)
          (concat_regions expected) (expected ≫= snd).
Proof.
  unfold concat_regions.
  induction expected as [|[[[c s] e] exp] expected IH]; [constructor|].
  rewrite !bind_cons. apply Forall2_app; [|done]. cbn [snd].
  apply Forall2_fmap_l, Forall_Forall2_diag, Forall_true. done.
Qed.

Lemma concat_regions_counts expected :
  diagsum_counts expected →
  Forall (fun r => (0 ≤ e_n_valid r)%Z ∧
                   (e_n_valid r = 0%Z →
                    e_balanced_sum r = NaN ∨ fl_eq (e_balanced_sum r) (Fin 0)))
         (concat_regions expected) ∧
  (foldr Z.add 0 (e_n_valid <$> concat_regions expected) < 2 ^ 63)%Z.
Proof.
  intros [Hrows Hsum]. pose proof (concat_regions_rows expected) as HF.
  split.
  - clear Hsum. induction HF as [|r d rs ds [Hn Hb] _ IH]; [done|].
    apply Forall_cons in Hrows as [Hd Hds]. constructor; [|by apply IH].
    by rewrite Hn, Hb.
  - replace (e_n_valid <$> concat_regions expected) with (n_valid <$> expected ≫= snd);
      [done|].
    clear -HF. induction HF as [|r d rs ds [Hn _] _ IH]; [done|].
    by rewrite !fmap_cons, IH, Hn.
Qed.

(** C8. Given what diagsum returns, every row of the table of getExpected
    has balanced.avg = balanced.sum / n_valid in numpy's division, which
    raises nothing, and on a row with n_valid = 0 the balanced.avg is NaN. *)
Theorem C8_balanced_avg {Cooler : Type}
    (diagsum : Cooler → list (string * Z * Z) → Z → list (string * Z * Z * list DiagRow))
    (clr : Cooler) (arms : list (string * Z * Z)) (ignoreDiagonals : Z) :
  diagsum_counts (diagsum clr arms ignoreDiagonals) →
  Forall (fun row =>
            balanced_avg row
            = fdiv (e_balanced_sum (a_row row)) (of_int (e_n_valid (a_row row))) ∧
            (e_n_valid (a_row row) = 0%Z → balanced_avg row = NaN))
         (getExpected diagsum clr arms ignoreDiagonals).
Proof.
  intros Hok. apply concat_regions_counts in Hok as [Hrows Hsum].
  unfold getExpected, groupby_sum.
  set (rows := concat_regions (diagsum clr arms ignoreDiagonals)) in *.
  apply Forall_fmap, Forall_fmap, Forall_true. intros k.
  split; [done|]. simpl. unfold int_sum.
  set (members := filter (fun r => group_key r = k) rows).
  assert (Forall (fun r => (0 ≤ e_n_valid r)%Z) rows) as Hnn.
  { eapply Forall_impl; [exact Hrows|]. by intros ? [? _]. }
  pose proof (sum_filter_bounds e_n_valid (fun r => group_key r = k) rows Hnn) as Hb.
  fold members in Hb.
  rewrite wrap64_small by lia. intros Hzero.
  assert (Forall (fun r => (0 ≤ e_n_valid r)%Z) members) as Hnn'.
  { apply Forall_forall. intros r Hr. rewrite Forall_forall in Hnn.
    apply Hnn. by apply list_elem_of_filter in Hr as [_ Hr]. }
  pose proof (sum_zero_all_zero e_n_valid members Hnn' Hzero) as Hall.
  rewrite Hzero. apply fdiv_zero_zero, nansum_zero, Forall_fmap.
  apply Forall_forall. intros r Hr.
  rewrite Forall_forall in Hall. rewrite Forall_forall in Hrows.
  apply (Hrows r); [|by apply Hall].
  by apply list_elem_of_filter in Hr as [_ Hr].
Qed.

Lemma C8_balanced_avg_witness :
  Forall (fun row =>
            balanced_avg row
            = fdiv (e_balanced_sum (a_row row)) (of_int (e_n_valid (a_row row))) ∧
            (e_n_valid (a_row row) = 0%Z → balanced_avg row = NaN))
         (getExpected diagsum_ex tt [("chr1", 0, 1000); ("chr1", 1000, 2000)]%Z 2).
Proof.
  apply (C8_balanced_avg diagsum_ex tt [("chr1", 0, 1000); ("chr1", 1000, 2000)]%Z 2).
  split; [|reflexivity].
  repeat constructor; simpl; try lia; try discriminate; intros _; by right.
Defined.

(** On the stand-in: the row of the diagonal without valid pixel has NaN. *)
Example getExpected_ex :
  balanced_avg <$> getExpected diagsum_ex tt [("chr1", 0, 1000); ("chr1", 1000, 2000)]%Z 2
  = [Fin (0 # 3); Fin ((3 # 2) / 2); NaN; Fin (0 # 2); NaN].
Proof. reflexivity. Qed.

(** * Further properties of the code *)

(** ** getArmsHg19 *)

Lemma series_get_own (s : list (string * Z)) i chrom size d :
  NoDup (s.*1) → s !! i = Some (chrom, size) → series_get s chrom d = size.
Proof.
  intros Hnd Hi. unfold series_get.
  destruct (list_find (fun kv => kv.1 = chrom) s) as [[j kv]|] eqn:Hfind.
  - apply list_find_Some in Hfind as (Hj & Hkv & _).
    assert (i = j) as ->.
    { eapply NoDup_lookup; [exact Hnd| |].
      - rewrite list_lookup_fmap, Hi. done.
      - rewrite list_lookup_fmap, Hj. simpl. by rewrite Hkv. }
    rewrite Hi in Hj. by injection Hj as <-.
  - apply list_find_None in Hfind. rewrite Forall_forall in Hfind.
    exfalso. apply (Hfind (chrom, size)); [|done].
    by eapply list_elem_of_lookup_2.
Qed.

Lemma getArmsHg19_resolved (chromsizes : list (string * Z)) cens :
  NoDup (chromsizes.*1) →
  getArmsHg19 chromsizes cens
  = take 23 chromsizes ≫= fun cs =>
      [(cs.1, 0%Z, default 0%Z (cens !! cs.1));
       (cs.1, default 0%Z (cens !! cs.1), cs.2)].
Proof.
  intros Hnd. unfold getArmsHg19. rewrite <- fmap_take.
  assert (∀ cs, cs ∈ take 23 chromsizes → series_get chromsizes cs.1 0 = cs.2) as Hown.
  { intros [c size] Hin. apply list_elem_of_lookup in Hin as [i Hi].
    apply lookup_take_Some in Hi as [Hi _]. by eapply series_get_own. }
  revert Hown. generalize (take 23 chromsizes). intros l Hown.
  induction l as [|cs l IH]; [done|].
  rewrite fmap_cons, !bind_cons, IH.
  - rewrite Hown; [done|left].
  - intros cs' Hin. apply Hown. by right.
Qed.

Lemma lookup_bind_pair {A B : Type} (f g : A → B) (l : list A) i :
  (l ≫= fun x => [f x; g x]) !! (2 * i) = f <$> l !! i ∧
  (l ≫= fun x => [f x; g x]) !! (2 * i + 1) = g <$> l !! i.
Proof.
  revert i. induction l as [|x l IH]; intros i; [done|].
  rewrite bind_cons. destruct i as [|i]; [done|].
  replace (2 * S i) with (S (S (2 * i))) by lia.
  replace (S (S (2 * i)) + 1) with (S (S (2 * i + 1))) by lia.
  simpl. apply IH.
Qed.

Lemma length_bind_pair {A B : Type} (f g : A → B) (l : list A) :
  length (l ≫= fun x => [f x; g x]) = 2 * length l.
Proof.
  induction l as [|x l IH]; [done|]. rewrite bind_cons, length_app, IH. simpl. lia.
Qed.

(** X1. getArmsHg19 gives two arms for each of the first 23 chromosomes of
    the size table, in its order: the first from 0 to the centromere mid,
    the second from the mid to the chromosome's size, so the two abut and
    cover the chromosome. *)
Theorem X1_getArmsHg19_two_arms (chromsizes : list (string * Z)) (cens : gmap string Z) :
  NoDup (chromsizes.*1) →
  length (getArmsHg19 chromsizes cens) = 2 * (23 `min` length chromsizes) ∧
  ∀ i chrom size,
    i < 23 → chromsizes !! i = Some (chrom, size) →
    ∃ mid,
      getArmsHg19 chromsizes cens !! (2 * i) = Some (chrom, 0%Z, mid) ∧
      getArmsHg19 chromsizes cens !! (2 * i + 1) = Some (chrom, mid, size).
Proof.
  intros Hnd. rewrite getArmsHg19_resolved by done. split.
  - by rewrite length_bind_pair, length_take.
  - intros i chrom size Hi Hlook. exists (default 0%Z (cens !! chrom)).
    pose proof (lookup_bind_pair
                  (fun cs : string * Z => (cs.1, 0%Z, default 0%Z (cens !! cs.1)))
                  (fun cs : string * Z => (cs.1, default 0%Z (cens !! cs.1), cs.2))
                  (take 23 chromsizes) i) as [H0 H1].
    rewrite H0, H1, lookup_take_lt, Hlook by done. done.
Qed.

Lemma X1_getArmsHg19_two_arms_witness :
  length (getArmsHg19 chromsizes_ex cens_ex) = 2 * (23 `min` length chromsizes_ex) ∧
  ∀ i chrom size,
    i < 23 → chromsizes_ex !! i = Some (chrom, size) →
    ∃ mid,
      getArmsHg19 chromsizes_ex cens_ex !! (2 * i) = Some (chrom, 0%Z, mid) ∧
      getArmsHg19 chromsizes_ex cens_ex !! (2 * i + 1) = Some (chrom, mid, size).
Proof.
  apply (X1_getArmsHg19_two_arms chromsizes_ex cens_ex).
  compute_done.
Defined.

(** X2. A chromosome among the first 23 that has no centromere record gets
    the mid 0: its first arm is the empty interval from 0 to 0 and its
    second arm is the whole chromosome. *)
Theorem X2_getArmsHg19_no_centromere (chromsizes : list (string * Z))
    (cens : gmap string Z) (i : nat) (chrom : string) (size : Z) :
  NoDup (chromsizes.*1) →
  i < 23 → chromsizes !! i = Some (chrom, size) →
  cens !! chrom = None →
  getArmsHg19 chromsizes cens !! (2 * i) = Some (chrom, 0%Z, 0%Z) ∧
  getArmsHg19 chromsizes cens !! (2 * i + 1) = Some (chrom, 0%Z, size).
Proof.
  intros Hnd Hi Hlook Hcen. rewrite getArmsHg19_resolved by done.
  pose proof (lookup_bind_pair
                (fun cs : string * Z => (cs.1, 0%Z, default 0%Z (cens !! cs.1)))
                (fun cs : string * Z => (cs.1, default 0%Z (cens !! cs.1), cs.2))
                (take 23 chromsizes) i) as [H0 H1].
  rewrite H0, H1, lookup_take_lt, Hlook by done. simpl. by rewrite Hcen.
Qed.

Lemma X2_getArmsHg19_no_centromere_witness :
  getArmsHg19 chromsizes_ex cens_ex !! (2 * 1) = Some ("chrM", 0%Z, 0%Z) ∧
  getArmsHg19 chromsizes_ex cens_ex !! (2 * 1 + 1) = Some ("chrM", 0%Z, 160%Z).
Proof.
  apply (X2_getArmsHg19_no_centromere chromsizes_ex cens_ex 1 "chrM" 160%Z).
  - compute_done.
  - lia.
  - reflexivity.
  - reflexivity.
Defined.

(** ** doPileupICCF and doPileupObsExp *)

Lemma omap_total {A B : Type} (f : A → option B) (g : A → B) (l : list A) :
  (∀ x, x ∈ l → f x = Some (g x)) → omap f l = g <$> l.
Proof.
  induction l as [|x l IH]; intros Hf; [done|].
  rewrite fmap_cons. cbn [omap list_omap]. rewrite Hf by left.
  f_equal. apply IH. intros y Hy. apply Hf. by right.
Qed.

Lemma pixel_stack_cells (pile : ndarray fl) s0 s1 s2 i j :
  shape pile = [s0; s1; s2] → wf_array pile → i < s0 → j < s1 →
  pixel_stack pile i j
  = (fun k => buf pile !!! ((i * s1 + j) * s2 + k)) <$> seq 0 s2.
Proof.
  intros Hsh Hwf Hi Hj. unfold pixel_stack. rewrite Hsh.
  apply omap_total. intros k Hk. apply elem_of_seq in Hk.
  unfold item3. rewrite Hsh. rewrite decide_True by lia.
  apply list_lookup_lookup_total_lt.
  unfold wf_array in Hwf. rewrite Hwf, Hsh. simpl. rewrite Nat.mul_1_r.
  assert (i * s1 + j + 1 ≤ s0 * s1) by nia.
  assert ((i * s1 + j) * s2 + k < (i * s1 + j + 1) * s2) by nia.
  assert ((i * s1 + j + 1) * s2 ≤ s0 * s1 * s2) by (apply Nat.mul_le_mono_r; lia).
  lia.
Qed.

Lemma nanmean_axis2_cells (pile : ndarray fl) s0 s1 s2 :
  shape pile = [s0; s1; s2] → wf_array pile →
  ∃ avg,
    nanmean_axis2 pile = Ok avg ∧ shape avg = [s0; s1] ∧ wf_array avg ∧
    ∀ i j, i < s0 → j < s1 →
           item2 avg i j = Some (nanmean (pixel_stack pile i j)).
Proof.
  intros Hsh Hwf. unfold nanmean_axis2. rewrite Hsh.
  change (size_of []) with 1.
  eexists. split; [reflexivity|]. cbn [shape buf].
  split; [done|]. split.
  { unfold wf_array. cbn [shape buf]. rewrite length_fmap, length_seq. simpl. lia. }
  intros i j Hi Hj. unfold item2. cbn [shape buf]. rewrite decide_True by done.
  assert (i * s1 + j < s0 * s1 * 1) as Hq by nia.
  rewrite list_lookup_fmap, lookup_seq_lt by done. cbn [fmap option_fmap option_map].
  rewrite (pixel_stack_cells pile s0 s1 s2) by done.
  do 2 f_equal. apply list_fmap_ext. intros _ k _.
  rewrite Nat.div_1_r, Nat.mod_1_r. f_equal. lia.
Qed.

(** X3. With collapse=True both pileup functions return, for a pile of
    shape [W1, W2, N], an array of shape [W1, W2] whose cell [i][j] is the
    mean over the windows of the cells at [i][j] that are not NaN. *)
Theorem X3_collapse_is_pixelwise_nanmean {Cooler Expected Windows : Type}
    (pileup : Cooler → Windows → ndarray fl)
    (pileup_oe : Cooler → Expected → Windows → ndarray fl)
    (clr : Cooler) (expected_df : Expected) (snipping_windows : Windows)
    (s0 s1 s2 : nat) :
  shape (pileup clr snipping_windows) = [s0; s1; s2] →
  wf_array (pileup clr snipping_windows) →
  shape (pileup_oe clr expected_df snipping_windows) = [s0; s1; s2] →
  wf_array (pileup_oe clr expected_df snipping_windows) →
  (∃ avg,
     doPileupICCF pileup clr snipping_windows true = Ok avg ∧
     shape avg = [s0; s1] ∧ wf_array avg ∧
     ∀ i j, i < s0 → j < s1 →
       item2 avg i j
       = Some (nanmean (pixel_stack (pileup clr snipping_windows) i j))) ∧
  (∃ avg,
     doPileupObsExp pileup_oe clr expected_df snipping_windows true = Ok avg ∧
     shape avg = [s0; s1] ∧ wf_array avg ∧
     ∀ i j, i < s0 → j < s1 →
       item2 avg i j
       = Some (nanmean (pixel_stack (pileup_oe clr expected_df snipping_windows) i j))).
Proof.
  intros Hsh Hwf Hsh' Hwf'. split.
  - unfold doPileupICCF. by apply (nanmean_axis2_cells _ s0 s1 s2).
  - unfold doPileupObsExp. by apply (nanmean_axis2_cells _ s0 s1 s2).
Qed.

Lemma X3_collapse_is_pixelwise_nanmean_witness :
  (∃ avg,
     doPileupICCF (fun _ _ : unit => pile_ex) tt tt true = Ok avg ∧
     shape avg = [2; 2] ∧ wf_array avg ∧
     ∀ i j, i < 2 → j < 2 →
       item2 avg i j = Some (nanmean (pixel_stack pile_ex i j))) ∧
  (∃ avg,
     doPileupObsExp (fun _ _ _ : unit => pile_ex) tt tt tt true = Ok avg ∧
     shape avg = [2; 2] ∧ wf_array avg ∧
     ∀ i j, i < 2 → j < 2 →
       item2 avg i j = Some (nanmean (pixel_stack pile_ex i j))).
Proof.
  apply (X3_collapse_is_pixelwise_nanmean
           (fun _ _ : unit => pile_ex) (fun _ _ _ : unit => pile_ex) tt tt tt 2 2 2);
    reflexivity.
Defined.

Lemma nanmean_singleton (x : fl) : fl_eq (nanmean [x]) x.
Proof.
  destruct x as [a| | |]; try done.
  unfold nanmean, mean. simpl. field.
Qed.

(** X4. The collapse of a pile that holds one window is that window: a
    finite cell keeps its value, an infinite cell stays infinite and a NaN
    cell stays NaN. *)
Theorem X4_collapse_of_one_window {Cooler Windows : Type}
    (pileup : Cooler → Windows → ndarray fl)
    (clr : Cooler) (snipping_windows : Windows) (s0 s1 i j : nat) :
  shape (pileup clr snipping_windows) = [s0; s1; 1] →
  wf_array (pileup clr snipping_windows) →
  i < s0 → j < s1 →
  ∃ avg x y,
    doPileupICCF pileup clr snipping_windows true = Ok avg ∧
    item3 (pileup clr snipping_windows) i j 0 = Some x ∧
    item2 avg i j = Some y ∧
    fl_eq y x.
Proof.
  intros Hsh Hwf Hi Hj. unfold doPileupICCF.
  destruct (nanmean_axis2_cells _ s0 s1 1 Hsh Hwf) as (avg & Hrun & _ & _ & Hcell).
  pose proof (pixel_stack_cells _ s0 s1 1 i j Hsh Hwf Hi Hj) as Hstack.
  simpl in Hstack.
  exists avg, (buf (pileup clr snipping_windows) !!! ((i * s1 + j) * 1 + 0)),
    (nanmean (pixel_stack (pileup clr snipping_windows) i j)).
  split; [done|]. split.
  - unfold item3. rewrite Hsh, decide_True by lia.
    apply list_lookup_lookup_total_lt.
    unfold wf_array in Hwf. rewrite Hwf, Hsh. simpl. nia.
  - split; [by apply Hcell|]. rewrite Hstack. apply nanmean_singleton.
Qed.

Lemma X4_collapse_of_one_window_witness :
  ∃ avg x y,
    doPileupICCF (fun _ _ : unit => one_window_ex) tt tt true = Ok avg ∧
    item3 one_window_ex 1 0 0 = Some x ∧
    item2 avg 1 0 = Some y ∧
    fl_eq y x.
Proof.
  apply (X4_collapse_of_one_window (fun _ _ : unit => one_window_ex) tt tt 2 2 1 0);
    [reflexivity|reflexivity|lia|lia].
Defined.

Lemma fsum_no_ninf (l : list fl) :
  NInf ∉ l → NaN ∉ l → fsum l = PInf ∨ ∃ a, fsum l = Fin a.
Proof.
  induction l as [|x l IH]; intros Hn Hnan; [right; by eexists|].
  apply not_elem_of_cons in Hn as [Hx Hn]. apply not_elem_of_cons in Hnan as [Hx' Hnan].
  simpl. destruct (IH Hn Hnan) as [->|[a ->]]; destruct x; try done; eauto.
Qed.

Lemma fsum_pinf (l : list fl) :
  PInf ∈ l → NInf ∉ l → NaN ∉ l → fsum l = PInf.
Proof.
  induction l as [|x l IH]; intros Hp Hn Hnan; [by apply elem_of_nil in Hp|].
  apply not_elem_of_cons in Hn as [Hx Hn]. apply not_elem_of_cons in Hnan as [Hx' Hnan].
  simpl. apply elem_of_cons in Hp as [<-|Hp].
  - by destruct (fsum_no_ninf l Hn Hnan) as [->|[a ->]].
  - rewrite IH by done. by destruct x.
Qed.

Lemma nanmean_pinf (l : list fl) : PInf ∈ l → NInf ∉ l → nanmean l = PInf.
Proof.
  intros Hp Hn. unfold nanmean, mean.
  rewrite fsum_pinf.
  - unfold of_int. simpl.
    destruct (Qle_bool 0 (inject_Z (Z.of_nat _))) eqn:Hle; [done|].
    exfalso. apply not_true_iff_false in Hle. apply Hle, Qle_bool_iff.
    change 0%Q with (inject_Z 0). rewrite <- Zle_Qle. lia.
  - by apply list_elem_of_filter.
  - intros Hin. apply list_elem_of_filter in Hin as [_ Hin]. done.
  - intros Hin. by apply list_elem_of_filter in Hin as [Hin _].
Qed.

(** X5. The collapse does not skip infinite cells: where some window has
    +inf at a pixel and no window has -inf there, the collapsed pixel is
    +inf, whatever the other windows hold. *)
Theorem X5_collapse_keeps_infinity {Cooler Expected Windows : Type}
    (pileup_oe : Cooler → Expected → Windows → ndarray fl)
    (clr : Cooler) (expected_df : Expected) (snipping_windows : Windows)
    (s0 s1 s2 i j : nat) :
  shape (pileup_oe clr expected_df snipping_windows) = [s0; s1; s2] →
  wf_array (pileup_oe clr expected_df snipping_windows) →
  i < s0 → j < s1 →
  PInf ∈ pixel_stack (pileup_oe clr expected_df snipping_windows) i j →
  NInf ∉ pixel_stack (pileup_oe clr expected_df snipping_windows) i j →
  ∃ avg,
    doPileupObsExp pileup_oe clr expected_df snipping_windows true = Ok avg ∧
    item2 avg i j = Some PInf.
Proof.
  intros Hsh Hwf Hi Hj Hp Hn. unfold doPileupObsExp.
  destruct (nanmean_axis2_cells _ s0 s1 s2 Hsh Hwf) as (avg & Hrun & _ & _ & Hcell).
  exists avg. split; [done|]. rewrite Hcell by done. f_equal.
  by apply nanmean_pinf.
Qed.

Lemma X5_collapse_keeps_infinity_witness :
  ∃ avg,
    doPileupObsExp (fun _ _ _ : unit => pile_ex) tt tt tt true = Ok avg ∧
    item2 avg 1 0 = Some PInf.
Proof.
  apply (X5_collapse_keeps_infinity (fun _ _ _ : unit => pile_ex) tt tt tt 2 2 2 1 0);
    [reflexivity|reflexivity|lia|lia| |].
  - change (pixel_stack pile_ex 1 0) with [PInf; Fin 2]. left.
  - change (pixel_stack pile_ex 1 0) with [PInf; Fin 2].
    intros Hin. apply elem_of_cons in Hin as [?|Hin]; [discriminate|].
    apply elem_of_cons in Hin as [?|Hin]; [discriminate|].
    by apply elem_of_nil in Hin.
Defined.

(** ** pileToFrame, more *)

Lemma pileToFrame_square (pile : ndarray fl) W N :
  shape pile = [W; W; N] → wf_array pile →
  pileToFrame pile = Ok (mkArr [N; W * W] (transpose_buf (W * W) N (buf pile))).
Proof.
  intros Hsh Hwf. unfold wf_array in Hwf. rewrite Hsh in Hwf. simpl in Hwf.
  unfold pileToFrame, flatten, reshape. rewrite Hsh. simpl.
  rewrite decide_True by (rewrite Hwf; lia). simpl.
  unfold transpose. simpl. by rewrite !Nat.mul_1_r.
Qed.

Lemma pileToFrame_column (pile : ndarray fl) W N table i j :
  shape pile = [W; W; N] → wf_array pile → i < W → j < W →
  pileToFrame pile = Ok table →
  omap (fun k => item2 table k (i * W + j)) (seq 0 N) = pixel_stack pile i j.
Proof.
  intros Hsh Hwf Hi Hj. rewrite (pileToFrame_square pile W N) by done.
  intros [= <-]. rewrite (pixel_stack_cells pile W W N) by done.
  apply omap_total. intros k Hk. apply elem_of_seq in Hk.
  assert (i * W + j < W * W) by nia.
  unfold item2. cbn [shape buf]. rewrite decide_True by lia.
  assert (length (buf pile) = W * W * N) as Hlen.
  { unfold wf_array in Hwf. rewrite Hwf, Hsh. simpl. lia. }
  rewrite lookup_transpose_buf by (done || lia).
  apply list_lookup_lookup_total_lt. rewrite Hlen.
  assert ((i * W + j) * N + k < (i * W + j + 1) * N) by nia.
  assert ((i * W + j + 1) * N ≤ W * W * N) by (apply Nat.mul_le_mono_r; lia).
  lia.
Qed.

(** X6. The collapsed pileup is the column-wise mean of the table that
    pileToFrame makes of the uncollapsed pileup: pixel [i][j] of the one is
    the mean, NaN left out, of column i*W+j of the other. *)
Theorem X6_collapse_is_column_mean_of_frame {Cooler Windows : Type}
    (pileup : Cooler → Windows → ndarray fl)
    (clr : Cooler) (snipping_windows : Windows) (W N : nat) :
  shape (pileup clr snipping_windows) = [W; W; N] →
  wf_array (pileup clr snipping_windows) →
  ∃ pile table avg,
    doPileupICCF pileup clr snipping_windows false = Ok pile ∧
    pileToFrame pile = Ok table ∧
    doPileupICCF pileup clr snipping_windows true = Ok avg ∧
    ∀ i j, i < W → j < W →
      item2 avg i j
      = Some (nanmean (omap (fun k => item2 table k (i * W + j)) (seq 0 N))).
Proof.
  intros Hsh Hwf. unfold doPileupICCF.
  destruct (nanmean_axis2_cells _ W W N Hsh Hwf) as (avg & Hrun & _ & _ & Hcell).
  eexists _, _, avg. split; [reflexivity|].
  split; [by apply (pileToFrame_square _ W N)|]. split; [done|].
  intros i j Hi Hj. rewrite Hcell by done. do 2 f_equal. symmetry.
  eapply pileToFrame_column; try done. by apply pileToFrame_square.
Qed.

Lemma X6_collapse_is_column_mean_of_frame_witness :
  ∃ pile table avg,
    doPileupICCF (fun _ _ : unit => pile_ex) tt tt false = Ok pile ∧
    pileToFrame pile = Ok table ∧
    doPileupICCF (fun _ _ : unit => pile_ex) tt tt true = Ok avg ∧
    ∀ i j, i < 2 → j < 2 →
      item2 avg i j
      = Some (nanmean (omap (fun k => item2 table k (i * 2 + j)) (seq 0 2))).
Proof.
  apply (X6_collapse_is_column_mean_of_frame (fun _ _ : unit => pile_ex) tt tt 2 2);
    reflexivity.
Defined.

(** X7. On a pile of shape [W1, W2, N], pileToFrame raises ValueError
    exactly when the windows are not square and the pile is not empty, and
    raises nothing otherwise. *)
Theorem X7_pileToFrame_rejects_non_square {A : Type} `{Inhabited A}
    (pile : ndarray A) (s0 s1 s2 : nat) :
  shape pile = [s0; s1; s2] → wf_array pile →
  (pileToFrame pile = Raise ValueError ↔ s0 ≠ s1 ∧ 0 < s0 ∧ 0 < s2) ∧
  (is_error (pileToFrame pile) = false ↔ s0 = s1 ∨ s0 = 0 ∨ s2 = 0).
Proof.
  intros Hsh Hwf. unfold wf_array in Hwf. rewrite Hsh in Hwf. simpl in Hwf.
  unfold pileToFrame, flatten, reshape. rewrite Hsh. simpl.
  rewrite Hwf, !Nat.mul_1_r.
  destruct (decide (s0 * s0 * s2 = s0 * (s1 * s2))) as [Heq|Hne]; simpl.
  - assert (0 < s0 → 0 < s2 → s0 = s1) as Hsq.
    { intros H0 H2.
      assert (s0 * s2 = s1 * s2) as Heq'.
      { apply (Nat.mul_cancel_l _ _ s0); lia. }
      apply Nat.mul_cancel_r in Heq'; lia. }
    split; split; try done.
    + intros (Hne & H0 & H2). exfalso. by apply Hne, Hsq.
    + intros _. destruct (decide (s0 = 0)); [tauto|].
      destruct (decide (s2 = 0)); [tauto|]. left. apply Hsq; lia.
  - split; split; try done.
    + intros _.
      assert (s0 ≠ s1) by (intros ->; lia).
      assert (s0 ≠ 0) by (intros ->; lia).
      assert (s2 ≠ 0) by (intros ->; rewrite !Nat.mul_0_r in Hne; lia).
      lia.
    + intros [-> | [-> | ->]]; exfalso; apply Hne; rewrite ?Nat.mul_0_r; lia.
Qed.

Lemma X7_pileToFrame_rejects_non_square_witness :
  (pileToFrame pile_2_3_1 = Raise ValueError ↔ 2 ≠ 3 ∧ 0 < 2 ∧ 0 < 1) ∧
  (is_error (pileToFrame pile_2_3_1) = false ↔ 2 = 3 ∨ 2 = 0 ∨ 1 = 0).
Proof.
  apply (X7_pileToFrame_rejects_non_square pile_2_3_1 2 3 1); reflexivity.
Defined.

(** X8. An array with fewer than three axes is no pile: pileToFrame and the
    collapse of both pileup functions raise IndexError on it, and without
    collapse the pileup functions hand it on as it is. *)
Theorem X8_fewer_than_three_axes {Cooler Expected Windows : Type}
    (pileup : Cooler → Windows → ndarray fl)
    (pileup_oe : Cooler → Expected → Windows → ndarray fl)
    (clr : Cooler) (expected_df : Expected) (snipping_windows : Windows) :
  length (shape (pileup clr snipping_windows)) < 3 →
  length (shape (pileup_oe clr expected_df snipping_windows)) < 3 →
  pileToFrame (pileup clr snipping_windows) = Raise IndexError ∧
  doPileupICCF pileup clr snipping_windows true = Raise IndexError ∧
  doPileupObsExp pileup_oe clr expected_df snipping_windows true = Raise IndexError ∧
  doPileupICCF pileup clr snipping_windows false = Ok (pileup clr snipping_windows) ∧
  doPileupObsExp pileup_oe clr expected_df snipping_windows false
  = Ok (pileup_oe clr expected_df snipping_windows).
Proof.
  intros Hlen Hlen'.
  unfold pileToFrame, doPileupICCF, doPileupObsExp, nanmean_axis2.
  destruct (shape (pileup clr snipping_windows)) as [|a [|b [|c rest]]];
    destruct (shape (pileup_oe clr expected_df snipping_windows)) as [|a' [|b' [|c' rest']]];
    simpl in *; try lia; done.
Qed.

Lemma X8_fewer_than_three_axes_witness :
  pileToFrame matrix_2_2 = Raise IndexError ∧
  doPileupICCF (fun _ _ : unit => matrix_2_2) tt tt true = Raise IndexError ∧
  doPileupObsExp (fun _ _ _ : unit => matrix_2_2) tt tt tt true = Raise IndexError ∧
  doPileupICCF (fun _ _ : unit => matrix_2_2) tt tt false = Ok matrix_2_2 ∧
  doPileupObsExp (fun _ _ _ : unit => matrix_2_2) tt tt tt false = Ok matrix_2_2.
Proof.
  apply (X8_fewer_than_three_axes
           (fun _ _ : unit => matrix_2_2) (fun _ _ _ : unit => matrix_2_2) tt tt tt);
    simpl; lia.
Defined.

(** ** assignRegions2d, more *)

Lemma filter_same_region_left {R : Type} `{EqDecision R} (l : list (Window R)) :
  List.filter same_region ((fun x => (Some x, @None (Window R))) <$> l) = [].
Proof. induction l as [|x l IH]; [done|]. rewrite fmap_cons. simpl. exact IH. Qed.

Lemma filter_same_region_right {R : Type} `{EqDecision R} (l : list (Window R)) :
  List.filter same_region ((fun y => (@None (Window R), Some y)) <$> l) = [].
Proof. induction l as [|x l IH]; [done|]. rewrite fmap_cons. simpl. exact IH. Qed.

Lemma filter_concat_axis1 {R : Type} `{EqDecision R} (l1 l2 : list (Window R)) :
  small_row <$> List.filter same_region (concat_axis1 l1 l2)
  = omap paired_row (zip l1 l2).
Proof.
  revert l2. induction l1 as [|x l1 IH]; intros l2.
  - change (concat_axis1 [] l2) with ((fun y => (@None (Window R), Some y)) <$> l2).
    by rewrite filter_same_region_right.
  - destruct l2 as [|y l2].
    + change (concat_axis1 (x :: l1) [])
        with ((fun x => (Some x, @None (Window R))) <$> (x :: l1)).
      by rewrite filter_same_region_left.
    + cbn [concat_axis1 zip zip_with List.filter omap list_omap].
      unfold same_region at 1, paired_row at 1. cbn [fst snd].
      destruct (w_region x) as [r1|] eqn:Hx, (w_region y) as [r2|] eqn:Hy;
        try apply IH.
      destruct (decide (r1 = r2)) as [->|Hne].
      * rewrite bool_decide_eq_true_2 by done. rewrite fmap_cons, IH.
        f_equal. unfold small_row. simpl. by rewrite Hx.
      * rewrite bool_decide_eq_false_2 by done. apply IH.
Qed.

(** X9. assignRegions2d pairs the two series of windows by position, keeps
    the pairs whose two regions are present and equal, in their order, and
    drops the rest; windows past the end of the shorter series are dropped
    as well. *)
Theorem X9_assignRegions2d_is_filtered_zip {R Arm : Type} `{EqDecision R}
    (cooltools : Snipping R Arm)
    (window binsize : Z) (chroms1 : list string) (positions1 : list Z)
    (chroms2 : list string) (positions2 : list Z) (arms : list Arm) :
  assignRegions2d cooltools window binsize chroms1 positions1 chroms2 positions2 arms
  = omap paired_row
         (zip (assignRegions cooltools window binsize chroms1 positions1 arms)
              (assignRegions cooltools window binsize chroms2 positions2 arms)).
Proof. unfold assignRegions2d. apply filter_concat_axis1. Qed.

(** ** slidingDiamond, more *)

Lemma imap_imap {A B C : Type} (f : nat → B → C) (g : nat → A → B) (l : list A) :
  imap f (imap g l) = imap (fun p x => f p (g p x)) l.
Proof.
  apply list_eq. intros p. rewrite !list_lookup_imap. by destruct (l !! p).
Qed.

Lemma omap_imap_window {A B : Type} (w : nat → bool) (h : nat → A → B) (k : A → B)
    (l : list A) :
  (∀ p x, w p = true → h p x = k x) →
  omap id (imap (fun p x => if w p then Some (h p x) else None) l)
  = k <$> omap id (imap (fun p x => if w p then Some x else None) l).
Proof.
  revert w h. induction l as [|x l IH]; intros w h Hh; [done|].
  cbn [imap omap list_omap].
  specialize (IH (w ∘ S) (h ∘ S) (fun p y => Hh (S p) y)).
  unfold compose in *.
  destruct (w 0) eqn:Hw; cbn [id].
  - rewrite fmap_cons, Hh by done. f_equal. exact IH.
  - exact IH.
Qed.

Lemma window_cells_masked (m : nat → bool) i j ncols (b0 : list fl) :
  window_cells i j ncols
    (scrub_window i j ncols
       (imap (fun p x => if m p && isinf x then NaN else x) b0))
  = inf_to_nan <$> window_cells i j ncols b0.
Proof.
  unfold window_cells, scrub_window. rewrite !imap_imap.
  apply (omap_imap_window (in_window i j ncols)
           (fun p x => if in_window i j ncols p
                            && isinf (if m p && isinf x then NaN else x)
                       then NaN else if m p && isinf x then NaN else x)
           inf_to_nan).
  intros p x ->. unfold inf_to_nan. by destruct (m p), x.
Qed.

Lemma scrub_window_masked (m : nat → bool) i j ncols (b0 : list fl) :
  scrub_window i j ncols (imap (fun p x => if m p && isinf x then NaN else x) b0)
  = imap (fun p x => if (in_window i j ncols p || m p) && isinf x then NaN else x) b0.
Proof.
  unfold scrub_window. rewrite imap_imap. apply imap_ext.
  intros p x _. by destruct (in_window i j ncols p), (m p), x.
Qed.

Lemma diamond_loop_masked hw ncols idxs (m : nat → bool) (b0 : list fl) :
  diamond_loop hw ncols idxs (imap (fun p x => if m p && isinf x then NaN else x) b0)
  = (imap (fun p x => if (covered hw ncols idxs p || m p) && isinf x then NaN else x) b0,
     (fun i => nanmean (inf_to_nan <$> window_cells i (i + hw + 1) ncols b0)) <$> idxs,
     bin hw <$> idxs).
Proof.
  revert m. induction idxs as [|i idxs IH]; intros m.
  - done.
  - cbn [diamond_loop diamond_step].
    rewrite window_cells_masked, scrub_window_masked, IH.
    rewrite !fmap_cons. do 2 f_equal.
    apply imap_ext. intros p x _. unfold covered. cbn [existsb].
    by destruct (in_window i (i + hw + 1) ncols p),
                (existsb _ idxs), (m p).
Qed.

Lemma imap_no_mask (b : list fl) :
  imap (fun _ x => if false && isinf x then NaN else x) b = b.
Proof. apply list_eq. intros p. rewrite list_lookup_imap. by destruct (b !! p). Qed.

Lemma diamond_loop_closed hw ncols idxs (b : list fl) :
  diamond_loop hw ncols idxs b
  = (imap (fun p x => if covered hw ncols idxs p && isinf x then NaN else x) b,
     (fun i => nanmean (inf_to_nan <$> window_cells i (i + hw + 1) ncols b)) <$> idxs,
     bin hw <$> idxs).
Proof.
  rewrite <- (imap_no_mask b) at 1.
  rewrite (diamond_loop_masked hw ncols idxs (fun _ => false) b).
  do 2 f_equal. apply imap_ext. intros p x _. by rewrite orb_false_r.
Qed.

(** X10. The values of slidingDiamond do not depend on its writing into the
    array: the value at index i is the mean of the cells of the diamond at
    i in the array as it was passed that are neither NaN nor infinite. *)
Theorem X10_slidingDiamond_values (array : ndarray fl) (nrows ncols sideLen : nat) :
  shape array = [nrows; ncols] →
  ∃ offsets values array',
    slidingDiamond array sideLen = Ok (offsets, values, array') ∧
    values
    = (fun i => nanmean (inf_to_nan
                           <$> window_cells i (i + sideLen `div` 2 + 1) ncols (buf array)))
        <$> seq 0 (nrows - sideLen `div` 2).
Proof.
  intros Hsh. unfold slidingDiamond. rewrite Hsh, diamond_loop_closed.
  eexists _, _, _. split; reflexivity.
Qed.

Lemma X10_slidingDiamond_values_witness :
  ∃ offsets values array',
    slidingDiamond matrix_ex 2 = Ok (offsets, values, array') ∧
    values
    = (fun i => nanmean (inf_to_nan
                           <$> window_cells i (i + 2 `div` 2 + 1) 3 (buf matrix_ex)))
        <$> seq 0 (3 - 2 `div` 2).
Proof. apply (X10_slidingDiamond_values matrix_ex 3 3 2). reflexivity. Defined.

Lemma covered_band hw r c (size : nat) :
  hw + 1 ≤ size → r < size → c < size →
  covered hw size (seq 0 (size - hw)) (r * size + c)
  = bool_decide (r ≤ c + hw ∧ c ≤ r + hw).
Proof.
  intros Hhw Hr Hc. unfold covered.
  destruct (divmod_row_major size r c Hc) as [Hd Hm].
  apply eq_true_iff_eq. rewrite existsb_exists, bool_decide_eq_true. split.
  - intros (i & _ & Hin). unfold in_window in Hin. rewrite Hd, Hm in Hin.
    apply andb_true_iff in Hin as [Hin H4]. apply andb_true_iff in Hin as [Hin H3].
    apply andb_true_iff in Hin as [H1 H2].
    apply Nat.leb_le in H1, H3. apply Nat.ltb_lt in H2, H4. lia.
  - intros [H1 H2]. exists (r `max` c - hw). split.
    + apply list_elem_of_In, elem_of_seq. lia.
    + unfold in_window. rewrite Hd, Hm.
      repeat (apply andb_true_iff; split);
        first [apply Nat.leb_le | apply Nat.ltb_lt]; lia.
Qed.

(** X11. What slidingDiamond leaves of a square matrix with more than
    sideLen div 2 rows: a cell no further than sideLen div 2 from the
    diagonal that was infinite is NaN, and every other cell is as it was. *)
Theorem X11_slidingDiamond_writes_the_band (array : ndarray fl) (size sideLen : nat) :
  shape array = [size; size] →
  sideLen `div` 2 + 1 ≤ size →
  ∃ offsets values array',
    slidingDiamond array sideLen = Ok (offsets, values, array') ∧
    shape array' = shape array ∧
    ∀ r c, r < size → c < size →
      item2 array' r c
      = (fun x => if bool_decide (r ≤ c + sideLen `div` 2 ∧ c ≤ r + sideLen `div` 2)
                     && isinf x
                  then NaN else x) <$> item2 array r c.
Proof.
  intros Hsh Hhw. unfold slidingDiamond. rewrite Hsh, diamond_loop_closed.
  eexists _, _, _. split; [reflexivity|]. cbn [shape buf]. split; [done|].
  intros r c Hr Hc. unfold item2. cbn [shape buf]. rewrite Hsh.
  rewrite !decide_True by done.
  rewrite list_lookup_imap, covered_band by done. done.
Qed.

Lemma X11_slidingDiamond_writes_the_band_witness :
  ∃ offsets values array',
    slidingDiamond matrix_wide_ex 2 = Ok (offsets, values, array') ∧
    shape array' = shape matrix_wide_ex ∧
    ∀ r c, r < 3 → c < 3 →
      item2 array' r c
      = (fun x => if bool_decide (r ≤ c + 2 `div` 2 ∧ c ≤ r + 2 `div` 2) && isinf x
                  then NaN else x) <$> item2 matrix_wide_ex r c.
Proof.
  apply (X11_slidingDiamond_writes_the_band matrix_wide_ex 3 2);
    [reflexivity|simpl; lia].
Defined.

(** X12. On a matrix with no more than sideLen div 2 rows slidingDiamond
    raises nothing: it returns no offset and no value, and the matrix is
    as it was. *)
Theorem X12_slidingDiamond_short_matrix (array : ndarray fl) (nrows ncols sideLen : nat) :
  shape array = [nrows; ncols] →
  nrows ≤ sideLen `div` 2 →
  slidingDiamond array sideLen = Ok ([], [], array).
Proof.
  intros Hsh Hshort. unfold slidingDiamond. rewrite Hsh.
  replace (nrows - sideLen `div` 2) with 0 by lia. simpl.
  destruct array as [sh b]. simpl in *. by subst.
Qed.

Lemma X12_slidingDiamond_short_matrix_witness :
  slidingDiamond matrix_ex 6 = Ok ([], [], matrix_ex).
Proof.
  apply (X12_slidingDiamond_short_matrix matrix_ex 3 3 6); [reflexivity|simpl; lia].
Defined.

(** X13. The offsets of slidingDiamond are what the docstring says: the
    k-th is the centre of the k-th diamond, k + (sideLen div 2) / 2, less
    the centre of the matrix, (rows - 1) / 2. *)
Theorem X13_slidingDiamond_offsets_from_centre (array : ndarray fl)
    (nrows ncols sideLen : nat) :
  shape array = [nrows; ncols] →
  sideLen `div` 2 + 1 ≤ nrows →
  ∃ offsets values array',
    slidingDiamond array sideLen = Ok (offsets, values, array') ∧
    Forall2 (fun k x =>
               fl_eq x (Fin (nat_Q k + nat_Q (sideLen `div` 2) / 2
                             - (nat_Q nrows - 1) / 2)))
            (seq 0 (nrows - sideLen `div` 2)) offsets.
Proof.
  intros Hsh Hhw. unfold slidingDiamond. rewrite Hsh, diamond_loop_closed.
  eexists _, _, _. split; [reflexivity|].
  set (hw := sideLen `div` 2) in *.
  eapply Forall2_impl; [apply (offsets_value hw (nrows - hw)); lia|].
  intros k x Hx. simpl in Hx. eapply fl_eq_Fin_r; [exact Hx|].
  rewrite nat_Q_sub by lia. field.
Qed.

Lemma X13_slidingDiamond_offsets_from_centre_witness :
  ∃ offsets values array',
    slidingDiamond matrix_ex 2 = Ok (offsets, values, array') ∧
    Forall2 (fun k x =>
               fl_eq x (Fin (nat_Q k + nat_Q (2 `div` 2) / 2 - (nat_Q 3 - 1) / 2)))
            (seq 0 (3 - 2 `div` 2)) offsets.
Proof.
  apply (X13_slidingDiamond_offsets_from_centre matrix_ex 3 3 2);
    [reflexivity|simpl; lia].
Defined.

(** ** downSamplePairs, more *)

Lemma tagged_set_cis df : tagged (Some (set_column "rType" (VStr "cis") df)).
Proof.
  exists (set_column "rType" (VStr "cis") df). split; [done|].
  split; [apply columns_set_rType|].
  eapply Forall_impl; [apply rows_set_rType_tagged|]. by left.
Qed.

Lemma tagged_set_trans df : tagged (Some (set_column "rType" (VStr "trans") df)).
Proof.
  exists (set_column "rType" (VStr "trans") df). split; [done|].
  split; [apply columns_set_rType|].
  eapply Forall_impl; [apply rows_set_rType_tagged|]. by right.
Qed.

Lemma tag_and_filter_inv D e (h : store) all h2 :
  tag_and_filter D e h = Ok (all, h2) →
  ∃ c t cisNow,
    h !! cis e = Some c ∧
    <[cis e := set_column "rType" (VStr "cis") c]> h !! trans e = Some t ∧
    h2 = <[trans e := set_column "rType" (VStr "trans") t]>
           (<[cis e := set_column "rType" (VStr "cis") c]> h) ∧
    h2 !! cis e = Some cisNow ∧
    all = loc_distance D (concat cisNow (set_column "rType" (VStr "trans") t)).
Proof.
  unfold tag_and_filter, deref.
  destruct (h !! cis e) as [c|] eqn:Hc; [|done]. simpl.
  destruct (<[cis e := _]> h !! trans e) as [t|] eqn:Ht; [|done]. simpl.
  destruct (<[trans e := _]> _ !! cis e) as [cisNow|] eqn:Hnow; [|done]. simpl.
  rewrite lookup_insert_eq. simpl. intros [= <- <-].
  exists c, t, cisNow. by repeat split.
Qed.

Lemma tag_and_filter_store D e (h : store) all h2 :
  tag_and_filter D e h = Ok (all, h2) →
  (∀ l, l ≠ cis e → l ≠ trans e → h2 !! l = h !! l) ∧
  tagged (h2 !! cis e) ∧ tagged (h2 !! trans e) ∧
  (cis e = trans e → Forall (has_rType "trans") (rows all)).
Proof.
  intros Hrun.
  destruct (tag_and_filter_inv _ _ _ _ _ Hrun) as (c & t & cisNow & Hc & Ht & -> & Hnow & ->).
  split; [|split; [|split]].
  - intros l H1 H2. by rewrite !lookup_insert_ne.
  - destruct (decide (cis e = trans e)) as [Heq|Hne].
    + rewrite Heq, lookup_insert_eq. apply tagged_set_trans.
    + rewrite lookup_insert_ne by congruence. rewrite lookup_insert_eq.
      apply tagged_set_cis.
  - rewrite lookup_insert_eq. apply tagged_set_trans.
  - intros Heq. rewrite Heq, lookup_insert_eq in Hnow. injection Hnow as <-.
    cbn [loc_distance concat rows]. apply Forall_forall. intros r Hr.
    apply list_elem_of_filter in Hr as [_ Hr].
    pose proof (rows_set_rType_tagged "trans" t) as Hall.
    rewrite Forall_forall in Hall. apply Hall.
    apply elem_of_app in Hr. tauto.
Qed.

Lemma tag_all_store D (d : pairsSamples) (h : store) outDict h1 :
  tag_all D d h = Ok (outDict, h1) →
  (∀ l, l ∉ refs d → h1 !! l = h !! l) ∧
  (∀ l, tagged (h !! l) → tagged (h1 !! l)) ∧
  (∀ l, l ∈ refs d → tagged (h1 !! l)) ∧
  Forall2 (fun se so =>
             cis se.2 = trans se.2 →
             ∀ all, so.2 !! "all" = Some all → Forall (has_rType "trans") (rows all))
          d outDict.
Proof.
  revert h outDict h1. induction d as [|[s e] d IH]; intros h outDict h1 Hrun.
  - simpl in Hrun. injection Hrun as <- <-.
    split; [done|]. split; [done|].
    split; [intros l Hl; by apply elem_of_nil in Hl|constructor].
  - cbn [tag_all] in Hrun.
    destruct (tag_and_filter D e h) as [[all h2]|] eqn:Hstep; [|done].
    cbn [mbind res_bind] in Hrun.
    destruct (tag_all D d h2) as [[outDict' h3]|] eqn:Hrest; [|done].
    cbn [mbind res_bind] in Hrun. injection Hrun as <- <-.
    destruct (tag_and_filter_store _ _ _ _ _ Hstep) as (Hsame & Hcis & Htrans & Halias).
    destruct (IH _ _ _ Hrest) as (Hsame' & Hkeep & Hrefs & HF).
    assert (∀ l, tagged (h !! l) → tagged (h2 !! l)) as Hkeep2.
    { intros l Hl. destruct (decide (l = cis e)) as [->|H1]; [done|].
      destruct (decide (l = trans e)) as [->|H2]; [done|].
      by rewrite Hsame. }
    unfold refs. rewrite bind_cons. fold (refs d). cbn [snd].
    split; [|split; [|split]].
    + intros l Hl. apply not_elem_of_app in Hl as [Hl Hl'].
      rewrite !not_elem_of_cons in Hl. destruct Hl as (H1 & H2 & _).
      rewrite Hsame' by done. by apply Hsame.
    + intros l Hl. by apply Hkeep, Hkeep2.
    + intros l Hl. apply elem_of_app in Hl as [Hl|Hl]; [|by apply Hrefs].
      rewrite !elem_of_cons in Hl.
      destruct Hl as [->|[->|Hl]]; [by apply Hkeep|by apply Hkeep|].
      by apply elem_of_nil in Hl.
    + constructor; [|done]. cbn [fst snd]. intros Heq all'.
      rewrite lookup_insert_eq. intros [= <-]. by apply Halias.
Qed.

Lemma Forall2_right {X Y : Type} (P : X → Y → Prop) (Q : Y → Prop) l k :
  Forall2 P l k → (∀ x y, P x y → Q y) → Forall Q k.
Proof. induction 1; intros HPQ; constructor; eauto. Qed.

Lemma filter_none {X : Type} (P : X → Prop) `{∀ x, Decision (P x)} (l : list X) :
  Forall (fun x => ¬ P x) l → filter P l = [].
Proof.
  induction 1 as [|x l Hx _ IH]; [done|]. by rewrite filter_cons_False.
Qed.

Lemma filter_every {X : Type} (P : X → Prop) `{∀ x, Decision (P x)} (l : list X) :
  Forall P l → filter P l = l.
Proof.
  induction 1 as [|x l Hx _ IH]; [done|]. by rewrite filter_cons_True, IH.
Qed.

Lemma Forall2_conj {X Y : Type} (P Q : X → Y → Prop) l k :
  Forall2 P l k → Forall2 Q l k → Forall2 (fun x y => P x y ∧ Q x y) l k.
Proof.
  induction 1 as [|x y l k HP _ IH]; intros HQ; [constructor|].
  apply Forall2_cons in HQ as [HQx HQ]. constructor; auto.
Qed.

Lemma downSamplePairs_run {G : Type} (choice : G → nat → nat → list nat * G)
    D (d : pairsSamples) (h : store) g :
  valid_choice choice → refs_ok h d → d ≠ [] →
  ∃ outDict out h1 g1 n,
    tag_all D d h = Ok (outDict, h1) ∧
    downSamplePairs choice d D h g = Ok (out, h1, g1) ∧
    py_min ((fun se => length (qualifying D h se.2)) <$> d) = Ok n ∧
    Forall2 (fun se so =>
               se.1 = so.1 ∧
               ∃ all,
                 (all_of D h se.2 all ∧
                  (cis se.2 = trans se.2 → Forall (has_rType "trans") (rows all))) ∧
                 n ≤ length (rows all) ∧ split_of n all so.2)
            d out.
Proof.
  intros Hch Hok Hne.
  destruct (tag_all_spec D d h h (store_rel_refl h) Hok)
    as (outDict & h1 & Hrun & Hrel & HF).
  pose proof (all_lens_spec D h d outDict HF) as Hlens.
  destruct (py_min_nonempty ((fun se => length (qualifying D h se.2)) <$> d))
    as [n Hmin].
  { by destruct d. }
  assert (Forall (fun se => n ≤ length (qualifying D h se.2)) d) as Hle.
  { apply Forall_forall. intros se Hse.
    eapply py_min_le; [exact Hmin|]. apply list_elem_of_fmap. eauto. }
  destruct (tag_all_store _ _ _ _ _ Hrun) as (_ & _ & _ & Halias).
  destruct (split_all_spec choice Hch
              (fun e all => all_of D h e all ∧
                            (cis e = trans e → Forall (has_rType "trans") (rows all)))
              n d outDict g) as (out & g1 & Hsplit & HF').
  { eapply Forall2_impl;
      [exact (Forall2_conj _ _ _ _ (Forall2_with_left _ _ _ _ HF Hle) Halias)|].
    intros se so [[[Hs (all & Ho & Hall)] Hn] Hal]. split; [done|].
    exists all. split; [done|].
    split; [by destruct Hall as (? & ? & ? & ? & ? & ?)|].
    split; [by rewrite (all_of_length _ _ _ _ Hall)|].
    split; [done|]. intros Heq. apply Hal; [done|]. rewrite Ho. apply lookup_insert_eq. }
  exists outDict, out, h1, g1, n. split; [done|]. split; [|done].
  unfold downSamplePairs.
  rewrite Hrun. simpl. rewrite Hlens. simpl. rewrite Hmin. simpl.
  rewrite Hsplit. done.
Qed.

(** X14. downSamplePairs raises exactly on the empty dictionary, where
    min() has nothing to take the minimum of and raises ValueError; on any
    other dictionary it returns. *)
Theorem X14_downSamplePairs_raises_only_on_empty {G : Type}
    (choice : G → nat → nat → list nat * G)
    (Distance : Z) (sampleDict : pairsSamples) (h : store) (g : G) :
  valid_choice choice → refs_ok h sampleDict →
  (sampleDict = [] → downSamplePairs choice sampleDict Distance h g = Raise ValueError) ∧
  (sampleDict ≠ [] → is_error (downSamplePairs choice sampleDict Distance h g) = false).
Proof.
  intros Hch Hok. split.
  - by intros ->.
  - intros Hne.
    destruct (downSamplePairs_run choice Distance sampleDict h g Hch Hok Hne)
      as (? & out & h1 & g1 & ? & _ & Hrun & _ & _).
    by rewrite Hrun.
Qed.

Lemma X14_downSamplePairs_raises_only_on_empty_witness :
  (samples_ex = [] → downSamplePairs first_rows samples_ex 10000 store_ex tt = Raise ValueError) ∧
  (samples_ex ≠ [] → is_error (downSamplePairs first_rows samples_ex 10000 store_ex tt) = false).
Proof.
  apply (X14_downSamplePairs_raises_only_on_empty first_rows 10000 samples_ex store_ex tt).
  - exact first_rows_valid.
  - exact refs_ok_ex.
Defined.

Lemma all_of_far_apart D h e all r :
  all_of D h e all → r ∈ rows all → far_apart D r.
Proof.
  intros (c0 & t0 & _ & _ & _ & Hrows & _) Hr.
  assert (untag r ∈ untag <$> filter (far_apart D) (rows c0 ++ rows t0)) as Hin.
  { rewrite <- Hrows. by apply list_elem_of_fmap_2. }
  apply list_elem_of_fmap in Hin as (r' & Heq & Hr').
  apply list_elem_of_filter in Hr' as [Hfar _].
  pose proof (f_equal pos1 Heq) as H1. pose proof (f_equal pos2 Heq) as H2.
  simpl in H1, H2. unfold far_apart in *. by rewrite H1, H2.
Qed.

Lemma split_of_rows n all o key table r :
  split_of n all o → o !! key = Some table → r ∈ rows table →
  (key = "cis" ∨ key = "trans") ∧ has_rType key r ∧ r ∈ rows all.
Proof.
  intros (locs & drawn & cp & tp & _ & _ & Hrows & -> & _ & _ & Hc & Ht) Hkey Hr.
  assert (∀ x, x ∈ drawn → x ∈ rows all) as Hsub.
  { intros x Hx. apply list_elem_of_lookup in Hx as [k Hk].
    destruct (Forall2_lookup_r _ _ _ _ _ Hrows Hk) as (i & _ & Hi).
    by eapply list_elem_of_lookup_2. }
  destruct (decide (key = "trans")) as [->|Hnt].
  { rewrite lookup_insert_eq in Hkey. injection Hkey as <-.
    rewrite Ht in Hr. apply list_elem_of_filter in Hr as [? ?]. auto. }
  rewrite lookup_insert_ne in Hkey by done.
  destruct (decide (key = "cis")) as [->|Hnc].
  { rewrite lookup_insert_eq in Hkey. injection Hkey as <-.
    rewrite Hc in Hr. apply list_elem_of_filter in Hr as [? ?]. auto. }
  rewrite lookup_insert_ne in Hkey by done. by rewrite lookup_empty in Hkey.
Qed.

(** X15. What downSamplePairs returns has the samples of the input, under
    their names and in their order, and every row of every table it
    returns passes the distance filter: pos2 - pos1 > Distance. *)
Theorem X15_downSamplePairs_rows_pass_the_filter {G : Type}
    (choice : G → nat → nat → list nat * G)
    (Distance : Z) (sampleDict : pairsSamples) (h : store) (g : G) :
  valid_choice choice → refs_ok h sampleDict → sampleDict ≠ [] →
  ∃ out h1 g1,
    downSamplePairs choice sampleDict Distance h g = Ok (out, h1, g1) ∧
    out.*1 = sampleDict.*1 ∧
    Forall (fun so =>
              ∀ key table r,
                so.2 !! key = Some table → r ∈ rows table →
                (Distance < wrap64 (pos2 r - pos1 r))%Z)
           out.
Proof.
  intros Hch Hok Hne.
  destruct (downSamplePairs_run choice Distance sampleDict h g Hch Hok Hne)
    as (? & out & h1 & g1 & n & _ & Hrun & _ & HF).
  exists out, h1, g1. split; [done|]. split.
  - clear Hrun Hok Hne. induction HF as [|se so d out' [Hs _] _ IH]; [done|].
    by rewrite !fmap_cons, IH, Hs.
  - eapply Forall2_right; [exact HF|].
    intros se so [_ (all & [Hall _] & _ & Hsplit)] key table r Hkey Hr.
    destruct (split_of_rows _ _ _ _ _ _ Hsplit Hkey Hr) as (_ & _ & Hin).
    by apply (all_of_far_apart _ _ _ _ _ Hall Hin).
Qed.

Lemma X15_downSamplePairs_rows_pass_the_filter_witness :
  ∃ out h1 g1,
    downSamplePairs first_rows samples_ex 10000 store_ex tt = Ok (out, h1, g1) ∧
    out.*1 = samples_ex.*1 ∧
    Forall (fun so =>
              ∀ key table r,
                so.2 !! key = Some table → r ∈ rows table →
                (10000 < wrap64 (pos2 r - pos1 r))%Z)
           out.
Proof.
  apply (X15_downSamplePairs_rows_pass_the_filter first_rows 10000 samples_ex store_ex tt).
  - exact first_rows_valid.
  - exact refs_ok_ex.
  - discriminate.
Defined.

(** X16. The store after downSamplePairs: every frame that the dictionary
    refers to carries the column "rType" with "cis" or "trans" in every
    row; such a frame keeps its rows, their order, their positions and
    their other cells; and a frame that the dictionary does not refer to
    is as it was. *)
Theorem X16_downSamplePairs_tags_the_input {G : Type}
    (choice : G → nat → nat → list nat * G)
    (Distance : Z) (sampleDict : pairsSamples) (h : store) (g : G) :
  valid_choice choice → refs_ok h sampleDict → sampleDict ≠ [] →
  ∃ out h1 g1,
    downSamplePairs choice sampleDict Distance h g = Ok (out, h1, g1) ∧
    (∀ l, l ∈ refs sampleDict → tagged (h1 !! l)) ∧
    (∀ l df, h !! l = Some df →
             ∃ df', h1 !! l = Some df' ∧ untag <$> rows df' = untag <$> rows df) ∧
    (∀ l, l ∉ refs sampleDict → h1 !! l = h !! l).
Proof.
  intros Hch Hok Hne.
  destruct (downSamplePairs_run choice Distance sampleDict h g Hch Hok Hne)
    as (outDict & out & h1 & g1 & n & Htag & Hrun & _ & _).
  destruct (tag_all_store _ _ _ _ _ Htag) as (Hsame & _ & Hrefs & _).
  destruct (tag_all_spec Distance sampleDict h h (store_rel_refl h) Hok)
    as (outDict' & h1' & Htag' & Hrel & _).
  rewrite Htag in Htag'. injection Htag' as <- <-.
  exists out, h1, g1. split; [done|]. split; [done|]. split; [|done].
  intros l df Hl. destruct (store_rel_lookup _ _ _ _ Hrel Hl) as (df' & ? & ?).
  by exists df'.
Qed.

Lemma X16_downSamplePairs_tags_the_input_witness :
  ∃ out h1 g1,
    downSamplePairs first_rows samples_ex 10000 store_ex tt = Ok (out, h1, g1) ∧
    (∀ l, l ∈ refs samples_ex → tagged (h1 !! l)) ∧
    (∀ l df, store_ex !! l = Some df →
             ∃ df', h1 !! l = Some df' ∧ untag <$> rows df' = untag <$> rows df) ∧
    (∀ l, l ∉ refs samples_ex → h1 !! l = store_ex !! l).
Proof.
  apply (X16_downSamplePairs_tags_the_input first_rows 10000 samples_ex store_ex tt).
  - exact first_rows_valid.
  - exact refs_ok_ex.
  - discriminate.
Defined.

(** X17. For a sample whose "cis" and "trans" entries are one and the same
    frame, the second assignment of "rType" overwrites the first: the cis
    table that is returned has no row, and all the rows drawn are in the
    trans table. *)
Theorem X17_downSamplePairs_one_frame_twice {G : Type}
    (choice : G → nat → nat → list nat * G)
    (Distance : Z) (sampleDict : pairsSamples) (h : store) (g : G) :
  valid_choice choice → refs_ok h sampleDict → sampleDict ≠ [] →
  ∃ out h1 g1 minReads,
    downSamplePairs choice sampleDict Distance h g = Ok (out, h1, g1) ∧
    py_min ((fun se => length (qualifying Distance h se.2)) <$> sampleDict)
    = Ok minReads ∧
    Forall2 (fun se so =>
               cis se.2 = trans se.2 →
               ∃ c t, so.2 !! "cis" = Some c ∧ so.2 !! "trans" = Some t ∧
                      rows c = [] ∧ length (rows t) = minReads)
            sampleDict out.
Proof.
  intros Hch Hok Hne.
  destruct (downSamplePairs_run choice Distance sampleDict h g Hch Hok Hne)
    as (outDict & out & h1 & g1 & n & _ & Hrun & Hmin & HF).
  exists out, h1, g1, n. split; [done|]. split; [done|].
  eapply Forall2_impl; [exact HF|].
  intros se so [_ (all & [Hall Halias] & _ & Hsplit)] Heq.
  specialize (Halias Heq).
  pose proof (fun key table r => split_of_rows n all so.2 key table r Hsplit) as Hrows.
  destruct Hsplit as (locs & drawn & cp & tp & _ & Hlen & Hdrawn & Ho & _ & _ & Hc & Ht).
  assert (Forall (has_rType "trans") drawn) as Hd.
  { rewrite Forall_forall in Halias. apply Forall_forall. intros r Hr.
    apply list_elem_of_lookup in Hr as [k Hk].
    destruct (Forall2_lookup_r _ _ _ _ _ Hdrawn Hk) as (i & _ & Hi).
    apply Halias. by eapply list_elem_of_lookup_2. }
  exists cp, tp. rewrite Ho.
  split; [done|]. split; [done|]. rewrite Hc, Ht. split.
  - apply filter_none. eapply Forall_impl; [exact Hd|].
    intros r Hr Hcis. unfold has_rType in *. congruence.
  - rewrite filter_every by done.
    apply Forall2_length in Hdrawn. lia.
Qed.

Lemma X17_downSamplePairs_one_frame_twice_witness :
  ∃ out h1 g1 minReads,
    downSamplePairs first_rows alias_samples_ex 10000 store_ex tt = Ok (out, h1, g1) ∧
    py_min ((fun se => length (qualifying 10000 store_ex se.2)) <$> alias_samples_ex)
    = Ok minReads ∧
    Forall2 (fun se so =>
               cis se.2 = trans se.2 →
               ∃ c t, so.2 !! "cis" = Some c ∧ so.2 !! "trans" = Some t ∧
                      rows c = [] ∧ length (rows t) = minReads)
            alias_samples_ex out.
Proof.
  apply (X17_downSamplePairs_one_frame_twice first_rows 10000 alias_samples_ex store_ex tt).
  - exact first_rows_valid.
  - repeat constructor; simpl; by eexists.
  - discriminate.
Defined.

(** ** getPairingScore, more *)

Lemma fsub_infinite (x m : fl) : isinf m = true → isfinite (fsub x m) = false.
Proof. by destruct x, m. Qed.

(** X19. When the median of the scores that are not NaN is infinite, the
    normalisation leaves no finite score: every returned score is NaN or
    infinite. *)
Theorem X19_getPairingScore_infinite_median (output : list Bin) (summarized : list fl) :
  isinf (median (valid_scores (getPairingScore output summarized false))) = true →
  Forall (fun r => isfinite (PairingScore r) = false)
         (getPairingScore output summarized true).
Proof.
  unfold getPairingScore. set (scored := set_scores output summarized).
  intros Hinf. unfold subtract_median. rewrite scores_dropna.
  apply Forall_fmap, Forall_true. intros r. simpl. by apply fsub_infinite.
Qed.

Lemma X19_getPairingScore_infinite_median_witness :
  Forall (fun r => isfinite (PairingScore r) = false)
         (getPairingScore bins_ex log_scores_ex true).
Proof. apply (X19_getPairingScore_infinite_median bins_ex log_scores_ex). reflexivity. Defined.

(** ** getExpected, more *)

Lemma insert_by_perm {A : Type} (leb : A → A → bool) x (l : list A) :
  insert_by leb x l ≡ₚ x :: l.
Proof.
  induction l as [|y l IH]; [done|]. simpl.
  destruct (leb x y); [done|]. rewrite IH. apply Permutation_swap.
Qed.

Lemma sort_by_perm {A : Type} (leb : A → A → bool) (l : list A) :
  sort_by leb l ≡ₚ l.
Proof.
  induction l as [|x l IH]; [done|].
  unfold sort_by in *. simpl. rewrite insert_by_perm. by constructor.
Qed.

Lemma group_key_aggregate rows k : group_key (aggregate_group rows k) = k.
Proof. by destruct k as [[[c s] e] d]. Qed.

Lemma keys_groupby_sum rows :
  group_key <$> groupby_sum rows
  = sort_by key_leb (remove_dups (group_key <$> rows)).
Proof.
  unfold groupby_sum. rewrite <- list_fmap_compose.
  rewrite <- (list_fmap_id (sort_by _ _)) at 2.
  apply list_fmap_ext. intros _ k _. apply group_key_aggregate.
Qed.

Lemma keys_concat_regions expected k :
  k ∈ group_key <$> concat_regions expected ↔
  ∃ exp d, (k.1.1.1, k.1.1.2, k.1.2, exp) ∈ expected ∧ d ∈ exp ∧ diag d = k.2.
Proof.
  unfold concat_regions. rewrite list_elem_of_fmap. split.
  - intros (r & -> & Hr). apply list_elem_of_bind in Hr as ([[[c s] e] exp] & Hr & Hin).
    apply list_elem_of_fmap in Hr as (d & -> & Hd). simpl. eauto.
  - intros (exp & d & Hin & Hd & Hdiag). destruct k as [[[c s] e] dg]. simpl in *.
    exists (mkExpected c s e (diag d) (n_valid d) (count_sum d) (balanced_sum d)).
    split; [by rewrite Hdiag|].
    apply list_elem_of_bind. exists (c, s, e, exp). split; [|done].
    apply list_elem_of_fmap. eauto.
Qed.

(** X21. The table of getExpected has one row for every (chrom, start,
    end, diag) that occurs in what diagsum returned: no key twice, and a key
    is there exactly when some region's table has a row for its diagonal. *)
Theorem X21_getExpected_one_row_per_key {Cooler : Type}
    (diagsum : Cooler → list (string * Z * Z) → Z → list (string * Z * Z * list DiagRow))
    (clr : Cooler) (arms : list (string * Z * Z)) (ignoreDiagonals : Z) :
  NoDup (group_key <$> (a_row <$> getExpected diagsum clr arms ignoreDiagonals)) ∧
  ∀ chrom start end_ dg,
    (chrom, start, end_, dg)
      ∈ group_key <$> (a_row <$> getExpected diagsum clr arms ignoreDiagonals) ↔
    ∃ exp d, (chrom, start, end_, exp) ∈ diagsum clr arms ignoreDiagonals ∧
             d ∈ exp ∧ diag d = dg.
Proof.
  unfold getExpected.
  set (rows := concat_regions (diagsum clr arms ignoreDiagonals)).
  assert (a_row <$> (with_avg <$> groupby_sum rows) = groupby_sum rows) as ->.
  { rewrite <- list_fmap_compose. rewrite <- (list_fmap_id (groupby_sum rows)) at 2.
    by apply list_fmap_ext. }
  rewrite keys_groupby_sum. split.
  - rewrite sort_by_perm. apply NoDup_remove_dups.
  - intros chrom start end_ dg. rewrite sort_by_perm, elem_of_remove_dups.
    apply (keys_concat_regions _ (chrom, start, end_, dg)).
Qed.

Lemma sum_indicator {K : Type} `{EqDecision K} (x : K) (a : Z) (keys : list K) :
  NoDup keys → x ∈ keys →
  foldr Z.add 0%Z ((fun k => if decide (x = k) then a else 0%Z) <$> keys) = a.
Proof.
  induction 1 as [|k keys Hk Hnd IH]; intros Hin; [by apply elem_of_nil in Hin|].
  rewrite fmap_cons. cbn [foldr]. destruct (decide (x = k)) as [->|Hne].
  - assert (foldr Z.add 0%Z ((fun k0 => if decide (k = k0) then a else 0%Z) <$> keys) = 0%Z)
      as ->; [|lia].
    clear -Hk. induction keys as [|k' keys IH]; [done|].
    apply not_elem_of_cons in Hk as [Hne Hk].
    rewrite fmap_cons. cbn [foldr]. rewrite decide_False by done. by rewrite IH.
  - apply elem_of_cons in Hin as [?|Hin]; [done|]. rewrite IH by done. lia.
Qed.

Lemma sum_groups {X K : Type} `{EqDecision K} (key : X → K) (f : X → Z)
    (keys : list K) (rows : list X) :
  NoDup keys → (∀ r, r ∈ rows → key r ∈ keys) →
  foldr Z.add 0%Z
        ((fun k => foldr Z.add 0%Z (f <$> filter (fun r => key r = k) rows)) <$> keys)
  = foldr Z.add 0%Z (f <$> rows).
Proof.
  intros Hnd. induction rows as [|r rows IH]; intros Hcover.
  - simpl. clear. induction keys as [|k keys IH]; [done|].
    rewrite fmap_cons. cbn [foldr]. by rewrite IH.
  - rewrite fmap_cons. cbn [foldr]. rewrite <- IH by (intros; apply Hcover; by right).
    rewrite <- (sum_indicator (key r) (f r) keys Hnd) at 1 by (apply Hcover; left).
    clear. induction keys as [|k keys IH]; [done|].
    rewrite !fmap_cons. cbn [foldr]. rewrite IH. rewrite filter_cons.
    destruct (decide (key r = k)); [rewrite fmap_cons; cbn [foldr]|]; lia.
Qed.

(** X22. getExpected loses no valid pixel: given what diagsum returns, the
    n_valid of the rows of its table add up to the n_valid of all the rows
    that diagsum returned. *)
Theorem X22_getExpected_conserves_n_valid {Cooler : Type}
    (diagsum : Cooler → list (string * Z * Z) → Z → list (string * Z * Z * list DiagRow))
    (clr : Cooler) (arms : list (string * Z * Z)) (ignoreDiagonals : Z) :
  diagsum_counts (diagsum clr arms ignoreDiagonals) →
  foldr Z.add 0%Z (e_n_valid <$> (a_row <$> getExpected diagsum clr arms ignoreDiagonals))
  = foldr Z.add 0%Z (n_valid <$> (diagsum clr arms ignoreDiagonals ≫= snd)).
Proof.
  intros Hok. pose proof (concat_regions_rows (diagsum clr arms ignoreDiagonals)) as HF.
  apply concat_regions_counts in Hok as [Hrows Hsum].
  unfold getExpected.
  set (rows := concat_regions (diagsum clr arms ignoreDiagonals)) in *.
  assert (n_valid <$> (diagsum clr arms ignoreDiagonals ≫= snd) = e_n_valid <$> rows) as ->.
  { clear -HF. induction HF as [|r d rs ds [Hn _] _ IH]; [done|].
    by rewrite !fmap_cons, IH, Hn. }
  assert (Forall (fun r => (0 ≤ e_n_valid r)%Z) rows) as Hnn.
  { eapply Forall_impl; [exact Hrows|]. by intros ? [? _]. }
  rewrite <- !list_fmap_compose. unfold groupby_sum. rewrite <- list_fmap_compose.
  set (keys := sort_by key_leb (remove_dups (group_key <$> rows))).
  rewrite <- (sum_groups group_key e_n_valid keys rows).
  - f_equal. apply list_fmap_ext. intros _ k _. cbn [compose a_row with_avg].
    unfold aggregate_group. cbn [e_n_valid]. unfold int_sum.
    pose proof (sum_filter_bounds e_n_valid (fun r => group_key r = k) rows Hnn).
    apply wrap64_small. lia.
  - unfold keys. rewrite sort_by_perm. apply NoDup_remove_dups.
  - intros r Hr. unfold keys. rewrite sort_by_perm, elem_of_remove_dups.
    by apply list_elem_of_fmap_2.
Qed.

Lemma X22_getExpected_conserves_n_valid_witness :
  foldr Z.add 0%Z
        (e_n_valid <$> (a_row <$> getExpected diagsum_ex tt
                                    [("chr1", 0, 1000); ("chr1", 1000, 2000)]%Z 2))
  = foldr Z.add 0%Z
          (n_valid <$> (diagsum_ex tt [("chr1", 0, 1000); ("chr1", 1000, 2000)]%Z 2
                          ≫= snd)).
Proof.
  apply (X22_getExpected_conserves_n_valid diagsum_ex tt
           [("chr1", 0, 1000); ("chr1", 1000, 2000)]%Z 2).
  split; [|reflexivity].
  repeat constructor; simpl; try lia; try discriminate; intros _; by right.
Defined.

(** ** The distance filter on ordered pairs *)

Lemma far_apart_ordered D r : ordered_pair r → far_apart D r ↔ far_apart_abs D r.
Proof.
  intros (H0 & H1 & H2). unfold far_apart, far_apart_abs.
  rewrite wrap64_small by lia. rewrite Z.abs_eq by lia. done.
Qed.

Lemma filter_agree {X : Type} (P Q : X → Prop) `{∀ x, Decision (P x)} `{∀ x, Decision (Q x)}
    (l : list X) :
  Forall (fun x => P x ↔ Q x) l → filter P l = filter Q l.
Proof.
  induction 1 as [|x l Hx _ IH]; [done|]. rewrite !filter_cons, IH.
  destruct (decide (P x)), (decide (Q x)); tauto.
Qed.

(** X23. On pairs that are stored with the lower position first (0 <= pos1
    <= pos2 < 2^63), in the cis and in the trans frame alike, the filter
    of downSamplePairs is the filter on the absolute distance: the combined
    table of every sample holds exactly the rows with |pos2 - pos1| >
    Distance. *)
Theorem X23_filter_is_absolute_on_ordered_pairs (Distance : Z)
    (sampleDict : pairsSamples) (h : store) :
  refs_ok h sampleDict →
  Forall (fun se => ∀ c t, h !! cis se.2 = Some c → h !! trans se.2 = Some t →
                           Forall ordered_pair (rows c ++ rows t))
         sampleDict →
  ∃ outDict h1,
    tag_all Distance sampleDict h = Ok (outDict, h1) ∧
    Forall2 (fun se so =>
               se.1 = so.1 ∧
               ∃ c t all,
                 h !! cis se.2 = Some c ∧ h !! trans se.2 = Some t ∧
                 so.2 !! "all" = Some all ∧
                 untag <$> rows all =
                 untag <$> filter (fun r => (Distance < Z.abs (pos2 r - pos1 r))%Z)
                                  (rows c ++ rows t))
            sampleDict outDict.
Proof.
  intros Hok Hord.
  destruct (tag_all_spec Distance sampleDict h h (store_rel_refl h) Hok)
    as (outDict & h1 & Hrun & _ & HF).
  exists outDict, h1. split; [done|].
  eapply Forall2_impl; [exact (Forall2_with_left _ _ _ _ HF Hord)|].
  intros [s e] [s' o] [[Hs (all & Ho & c0 & t0 & Hc & Ht & _ & Hrows & _)] Hordered].
  split; [done|]. exists c0, t0, all. simpl in *. subst o.
  rewrite lookup_insert_eq. repeat split; try done.
  rewrite Hrows. f_equal.
  apply (filter_agree (far_apart Distance) (far_apart_abs Distance)).
  eapply Forall_impl; [exact (Hordered c0 t0 Hc Ht)|].
  intros r Hr. by apply far_apart_ordered.
Qed.

Lemma X23_filter_is_absolute_on_ordered_pairs_witness :
  ∃ outDict h1,
    tag_all 10000 samples_ex ordered_store_ex = Ok (outDict, h1) ∧
    Forall2 (fun se so =>
               se.1 = so.1 ∧
               ∃ c t all,
                 ordered_store_ex !! cis se.2 = Some c ∧
                 ordered_store_ex !! trans se.2 = Some t ∧
                 so.2 !! "all" = Some all ∧
                 untag <$> rows all =
                 untag <$> filter (fun r => (10000 < Z.abs (pos2 r - pos1 r))%Z)
                                  (rows c ++ rows t))
            samples_ex outDict.
Proof.
  apply (X23_filter_is_absolute_on_ordered_pairs 10000 samples_ex ordered_store_ex).
  - repeat constructor; simpl; by eexists.
  - constructor; [|constructor]. intros c t Hc Ht.
    vm_compute in Hc, Ht. injection Hc as <-. injection Ht as <-.
    repeat constructor; simpl; lia.
Defined.
